(** * Video note generator: long-form and short-form generators

    A shallow embedding of [generators/blog.py] and
    [generators/xiaohongshu.py]: Python strings are lists of code points,
    the [re] calls are run by a backtracking matcher with the priorities of
    Python's engine, and the completion service is an arbitrary stateful
    collaborator that may return text, return nothing, or raise. *)

From Stdlib Require Import Ascii String DecimalString.
From Stdlib Require Import NArith ZArith QArith Bool Arith Lia List.
Import ListNotations.
Close Scope Q_scope.

Set Implicit Arguments.

(** ** Python strings *)

(** A Python [str] is a sequence of Unicode code points. *)
Definition char := N.
Definition str := list char.

Module Utf8.

(** Source text is written as UTF-8 literals and decoded to code points. *)
Fixpoint bytes (s : string) : list N :=
  match s with
  | EmptyString => []
  | String a s' => N_of_ascii a :: bytes s'
  end.

Definition cont (b : N) : N := N.land b 63.

Fixpoint decode (bs : list N) : str :=
  match bs with
  | [] => []
  | b0 :: r0 =>
      if (b0 <? 128)%N then b0 :: decode r0
      else if (b0 <? 224)%N then
        match r0 with
        | b1 :: r1 => (N.shiftl (N.land b0 31) 6 + cont b1)%N :: decode r1
        | [] => []
        end
      else if (b0 <? 240)%N then
        match r0 with
        | b1 :: b2 :: r2 =>
            (N.shiftl (N.land b0 15) 12 + N.shiftl (cont b1) 6 + cont b2)%N :: decode r2
        | _ => []
        end
      else
        match r0 with
        | b1 :: b2 :: b3 :: r3 =>
            (N.shiftl (N.land b0 7) 18 + N.shiftl (cont b1) 12
             + N.shiftl (cont b2) 6 + cont b3)%N :: decode r3
        | _ => []
        end
  end.

End Utf8.

(** [txt "..."] is the Python literal with that text. *)
Definition txt (s : string) : str := Utf8.decode (Utf8.bytes s).
Arguments txt s%_string.

Definition NL : char := 10%N.
Definition SP : char := 32%N.
Definition HASH : char := 35%N.
Definition DQ : char := 34%N.
Definition LPAR : char := 40%N.
Definition RPAR : char := 41%N.
Definition STAR : char := 42%N.
Definition DASH : char := 45%N.
Definition DOT : char := 46%N.
Definition COLON : char := 58%N.
Definition LBRK : char := 91%N.
Definition RBRK : char := 93%N.

Definition eqc (a b : char) : bool := (a =? b)%N.
Arguments eqc a b : simpl never.

(** [str.isspace] on one code point, which is also what [\s] matches in a
    [str] pattern. *)
Definition isspace (c : char) : bool :=
  ((9 <=? c) && (c <=? 13) || (28 <=? c) && (c <=? 32)
   || (c =? 133) || (c =? 160) || (c =? 5760)
   || (8192 <=? c) && (c <=? 8202)
   || (c =? 8232) || (c =? 8233) || (c =? 8239) || (c =? 8287) || (c =? 12288))%N.

(** Start code points of the runs of ten decimal digits ([Nd]) that [\d]
    matches in a [str] pattern. *)
Definition digit_runs : list N :=
  [48; 1632; 1776; 1984; 2406; 2534; 2662; 2790; 2918; 3046; 3174; 3302;
   3430; 3558; 3664; 3792; 3872; 4160; 4240; 6112; 6160; 6470; 6608; 6784;
   6800; 6992; 7088; 7232; 7248; 42528; 43216; 43264; 43472; 43504; 43600;
   44016; 65296; 66720; 68912; 69734; 69872; 69942; 70096; 70384; 70736;
   70864; 71248; 71360; 71472; 71904; 72016; 72784; 73040; 73120; 92768;
   92864; 93008; 120782; 120792; 120802; 120812; 120822; 123200; 123632;
   125264; 130032]%N.

Definition isdecimal (c : char) : bool :=
  existsb (fun lo => (lo <=? c) && (c <? lo + 10))%N digit_runs.

Arguments isspace c : simpl never.
Arguments isdecimal c : simpl never.

Fixpoint dropWhile (p : char -> bool) (s : str) : str :=
  match s with
  | [] => []
  | c :: s' => if p c then dropWhile p s' else s
  end.

Fixpoint takeWhile (p : char -> bool) (s : str) : str :=
  match s with
  | [] => []
  | c :: s' => if p c then c :: takeWhile p s' else []
  end.

Definition lstrip (s : str) : str := dropWhile isspace s.
Definition rstrip (s : str) : str := rev (dropWhile isspace (rev s)).

(** [s.strip()] *)
Definition strip (s : str) : str := rstrip (lstrip s).

(** [s.startswith(p)] *)
Fixpoint startswith (p s : str) : bool :=
  match p, s with
  | [], _ => true
  | a :: p', b :: s' => eqc a b && startswith p' s'
  | _ :: _, [] => false
  end.

(** [p in s] *)
Fixpoint contains (p s : str) : bool :=
  startswith p s || match s with [] => false | _ :: s' => contains p s' end.

(** [s.split(c)] for a one-character separator. *)
Fixpoint split_chr (c : char) (s : str) : list str :=
  match s with
  | [] => [[]]
  | x :: s' =>
      if eqc x c then [] :: split_chr c s'
      else match split_chr c s' with
           | h :: t => (x :: h) :: t
           | [] => [[x]]
           end
  end.

(** [s.split(sep)] for a non-empty separator: the separators are found from
    the left and do not overlap; [skip] counts the characters of the
    separator still to be passed. *)
Fixpoint split_go (sep : str) (skip : nat) (s : str) : list str :=
  match s with
  | [] => [[]]
  | x :: s' =>
      match skip with
      | S k => split_go sep k s'
      | O =>
          if startswith sep s then
            [] :: match length sep with
                  | S (S k) => split_go sep (S k) s'
                  | _ => split_go sep 0 s'
                  end
          else match split_go sep 0 s' with
               | h :: t => (x :: h) :: t
               | [] => [[x]]
               end
      end
  end.

(** [sep.join(l)] *)
Fixpoint join (sep : str) (l : list str) : str :=
  match l with
  | [] => []
  | [x] => x
  | x :: l' => x ++ sep ++ join sep l'
  end.

(** [str(n)] for a non-negative integer, as an f-string renders it. *)
Definition str_of_nat (n : nat) : str :=
  txt (NilEmpty.string_of_uint (Nat.to_uint n)).

(** ** The [re] module

    The repository's patterns use literals, classes, [.], [^], [$],
    concatenation, [?], greedy and lazy [*] and [+], and at most one
    capturing group whose text is read. *)

Inductive regex : Type :=
| Eps
| Chr (c : char)
| Cls (p : char -> bool)
| Dot
| Bol
| Eol
| Seq (a b : regex)
| Opt (a : regex)
| Star (greedy : bool) (a : regex)
| Grp (a : regex).

(** [a+] and [a+?] *)
Definition Plus (greedy : bool) (a : regex) : regex := Seq a (Star greedy a).

Fixpoint Lit (s : str) : regex :=
  match s with
  | [] => Eps
  | c :: s' => Seq (Chr c) (Lit s')
  end.

Fixpoint Cat (l : list regex) : regex :=
  match l with
  | [] => Eps
  | [a] => a
  | a :: l' => Seq a (Cat l')
  end.

Record flags : Type := Flags { MULTILINE : bool; DOTALL : bool }.

Definition no_flags : flags := Flags false false.
Definition multiline_flags : flags := Flags true false.
Definition dotall_flags : flags := Flags false true.

Section Matcher.

Variable fl : flags.
Variable A : Type.

(** A continuation receives the character before the current position, the
    rest of the subject and the text of group 1. *)
Definition kont : Type := option char -> str -> option str -> option A.

(** Backtracking matcher: the first success in the engine's order of
    preference.  A repetition stops when its body matched without
    consuming, so [length s] iterations are all there can be. *)
Fixpoint rmatch (r : regex) (prev : option char) (s : str) (g : option str)
         (k : kont) {struct r} : option A :=
  match r with
  | Eps => k prev s g
  | Chr c =>
      match s with
      | x :: s' => if eqc x c then k (Some x) s' g else None
      | [] => None
      end
  | Cls p =>
      match s with
      | x :: s' => if p x then k (Some x) s' g else None
      | [] => None
      end
  | Dot =>
      match s with
      | x :: s' => if DOTALL fl || negb (eqc x NL) then k (Some x) s' g else None
      | [] => None
      end
  | Bol =>
      match prev with
      | None => k prev s g
      | Some x => if MULTILINE fl && eqc x NL then k prev s g else None
      end
  | Eol =>
      match s with
      | [] => k prev s g
      | x :: s' =>
          if eqc x NL && (MULTILINE fl || match s' with [] => true | _ => false end)
          then k prev s g else None
      end
  | Seq a b => rmatch a prev s g (fun p' s' g' => rmatch b p' s' g' k)
  | Opt a =>
      match rmatch a prev s g k with
      | Some x => Some x
      | None => k prev s g
      end
  | Star greedy a =>
      (fix loop (n : nat) (prev : option char) (s : str) (g : option str)
           {struct n} : option A :=
         match n with
         | O => k prev s g
         | S n' =>
             let more (_ : unit) :=
               rmatch a prev s g
                 (fun p' s' g' =>
                    if length s' <? length s then loop n' p' s' g' else None) in
             if greedy then
               match more tt with
               | Some x => Some x
               | None => k prev s g
               end
             else
               match k prev s g with
               | Some x => Some x
               | None => more tt
               end
         end) (length s) prev s g
  | Grp a =>
      rmatch a prev s g
        (fun p' s' _ => k p' s' (Some (firstn (length s - length s') s)))
  end.

End Matcher.

(** A match found by a search. *)
Record mtch : Type := Mtch {
  m_pre : str;            (* subject text before the match *)
  m_text : str;           (* the matched text *)
  m_grp : option str;     (* group 1 *)
  m_last : option char;   (* character before the end of the match *)
  m_post : str            (* subject text after the match *)
}.

Definition add_pre (x : char) (m : mtch) : mtch :=
  Mtch (x :: m_pre m) (m_text m) (m_grp m) (m_last m) (m_post m).

Section Search.

Variable fl : flags.
Variable r : regex.

(** One attempt at the current position.  [adv] is the engine's
    must-advance flag: an empty match is refused (and backtracked). *)
Definition match_at (adv : bool) (prev : option char) (s : str) : option mtch :=
  rmatch fl r prev s None
    (fun p' s' g' =>
       if adv && (length s' =? length s) then None
       else Some (Mtch [] (firstn (length s - length s') s) g' p' s')).

(** Leftmost match from the current position on; only the first attempt
    is subject to must-advance. *)
Fixpoint search_go (adv : bool) (prev : option char) (s : str) : option mtch :=
  match match_at adv prev s with
  | Some m => Some m
  | None =>
      match s with
      | [] => None
      | x :: s' => option_map (add_pre x) (search_go false (Some x) s')
      end
  end.

(** [re.search(r, s, flags)] *)
Definition search (s : str) : option mtch := search_go false None s.

Definition is_nil (s : str) : bool := match s with [] => true | _ => false end.

(** The loop of [re.sub]: [cnt] is the number of replacements still
    allowed ([None] for [count=0], no limit).  After an empty match the next
    match must advance. *)
Fixpoint sub_go (fuel : nat) (repl : str) (cnt : option nat) (adv : bool)
         (prev : option char) (s : str) : str :=
  match fuel, cnt with
  | O, _ => s
  | _, Some O => s
  | S fuel', _ =>
      match search_go adv prev s with
      | None => s
      | Some m =>
          m_pre m ++ repl
          ++ sub_go fuel' repl (option_map pred cnt) (is_nil (m_text m))
               (m_last m) (m_post m)
      end
  end.

(** Every round of the loop either consumes a character or turns
    must-advance on, so this many rounds are never used up. *)
Definition rounds (s : str) : nat := 2 * length s + 2.

(** [re.sub(r, repl, s, count, flags)] *)
Definition sub (repl : str) (cnt : option nat) (s : str) : str :=
  sub_go (rounds s) repl cnt false None s.

(** The loop of [re.findall] for a pattern with one group: the texts of
    group 1. *)
Fixpoint findall_go (fuel : nat) (adv : bool) (prev : option char) (s : str)
  : list str :=
  match fuel with
  | O => []
  | S fuel' =>
      match search_go adv prev s with
      | None => []
      | Some m =>
          match m_grp m with Some g => g | None => [] end
          :: findall_go fuel' (is_nil (m_text m)) (m_last m) (m_post m)
      end
  end.

(** [re.findall(r, s)] *)
Definition findall (s : str) : list str := findall_go (rounds s) false None s.

End Search.

(** ** Collaborators *)

(** The [video_info] mapping, read with [.get(key, default)]. *)
Definition dict : Type := list (string * str).

Fixpoint get (d : dict) (k : string) (default : str) : str :=
  match d with
  | [] => default
  | (k', v) :: d' => if String.eqb k' k then v else get d' k default
  end.

(** The keyword arguments of [ai_processor.generate_completion]. *)
Record request : Type := Request {
  system_prompt : str;
  user_prompt : str;
  temperature : Q;
  max_tokens : Z
}.

(** A call either returns or raises an [Exception]. *)
Inductive outcome (E A : Type) : Type :=
| Returns (a : A)
| Raises (e : E).
Arguments Returns {E A} a.
Arguments Raises {E A} e.

(** Code that calls the completion service: the service has a state of its
    own, and each call answers with text, with [None], or by raising. *)
Definition M (E S A : Type) : Type := S -> outcome E A * S.

Definition ret {E S A} (a : A) : M E S A := fun s => (Returns a, s).

Definition bind {E S A B} (c : M E S A) (f : A -> M E S B) : M E S B :=
  fun s =>
    match c s with
    | (Returns a, s') => f a s'
    | (Raises e, s') => (Raises e, s')
    end.

(** [try: c  except Exception as e: h e] *)
Definition try_except {E S A} (c : M E S A) (h : E -> M E S A) : M E S A :=
  fun s =>
    match c s with
    | (Returns a, s') => (Returns a, s')
    | (Raises e, s') => h e s'
    end.

Notation "x <- c ;; f" := (bind c (fun x => f))
  (at level 61, c at next level, right associativity).

(** Truth value of an [Optional[str]]: [None] and the empty string are
    false. *)
Definition truthy (r : option str) : bool :=
  match r with
  | Some (_ :: _) => true
  | _ => false
  end.

(** Classes of the patterns. *)
Definition is_ (c : char) : char -> bool := fun x => eqc x c.
Definition not_ (c : char) : char -> bool := fun x => negb (eqc x c).
Definition one_of (l : str) : char -> bool := fun x => existsb (eqc x) l.

(** ** generators/blog.py *)

Module Blog.

(** [self.blog_prompt] up to its only placeholder, [{content}], with which
    the template ends. *)
Definition blog_prompt_head : str :=
  txt "YouTube视频转博客提示词

你是一位顶级的深度内容创作者与思想转述者，拥有将任何复杂信息转化为一篇结构精巧、文笔优美、思想深刻的中文博客文章的卓越能力。你的写作风格不是信息的罗列，而是思想的启迪；你的文章不仅让人读懂，更让人思考。

你的任务是：将我发送的视频内容，完全内化和吸收后，以你自己的口吻和叙事风格，创作一篇全新的、独立的深度文章。

核心创作原则：

- 思想的重塑，而非文字的搬运： 你的目标不是" ++
  [DQ] ++
  txt "转写" ++
  [DQ] ++
  txt "视频，而是" ++
  [DQ] ++
  txt "启迪" ++
  [DQ] ++
  txt "读者。你要深入理解视频的内核，然后用最具洞察力和启发性的方式将其重新组织和呈现。
- 标题是文章的灵魂： 你需要为整篇文章、以及文章内部的每一个逻辑章节，都创作出高度概括且充满吸引力的标题。绝不使用" ++
  [DQ] ++
  txt "引言" ++
  [DQ] ++
  txt "、" ++
  [DQ] ++
  txt "正文" ++
  [DQ] ++
  txt "、" ++
  [DQ] ++
  txt "总结" ++
  [DQ] ++
  txt "这类模板化标题。
- 叙事驱动一切： 用流畅的散文体贯穿全文。即使是解释步骤或框架，也要用叙事性的段落来呈现，通过优雅的过渡词（例如" ++
  [DQ] ++
  txt "这一切的起点在于……" ++
  [DQ] ++
  txt "、" ++
  [DQ] ++
  txt "要理解这背后的逻辑，我们首先需要……" ++
  [DQ] ++
  txt "、" ++
  [DQ] ++
  txt "然而，真正的关键在于……" ++
  [DQ] ++
  txt "）来串联逻辑，而不是依赖项目符号。
- 完整性至上： 必须忠实地涵盖视频中的所有重要内容、观点和细节。不要遗漏任何关键信息，不要因为追求简洁而牺牲完整性。文章长度应该与视频内容的丰富程度相匹配，宁可详尽也不要简略。

**极其重要：**

【关于项目符号的绝对禁令】
绝对禁止使用任何形式的项目符号、编号列表或bullet points，包括但不限于：
- 星号（*）开头的列表
- 数字编号（1.、2.、3.）的列表
- 破折号（-）开头的列表
- 圆点（•）开头的列表
- 任何其他形式的列表标记

即使在列举多个要点时，也必须使用连贯的段落形式。例如：

❌ 错误示例（使用了列表）：
这个框架包括：
1. 第一个要点
2. 第二个要点
3. 第三个要点

✅ 正确示例（使用段落）：
这个框架包括三个核心要素。首先是第一个要点的内容，它描述了……其次是第二个要点，这一点强调……最后是第三个要点，它关注……

【关于内容完整性】
必须完整呈现视频的所有重要内容，不得省略或简化任何关键观点、案例或论述。文章篇幅没有上限，要充分展开每一个主题。

文章生成流程与要求：

第一步：基础信息与总标题

- 文章总标题： 在理解视频全部内容后，构思一个能够精准概括核心思想，并能瞬间抓住读者眼球的博客主标题（可包含副标题）。
- 文章元信息： 在文章末尾或开头附上以下信息：
  - 思想来源 (Source of Inspiration): [视频创作者名称]
  - 原始视频 (Original Video): [原始视频链接]

第二步：创作第一章节（开篇）

- 章节标题： 创作一个能激发读者强烈好奇心，或点明核心矛盾的标题。
- 内容要求： 以一个引人入胜的切入点（故事、场景、痛点、反常识观点）开始，自然地引出文章要探讨的核心问题，并含蓄地点明阅读本文将带来的独特认知价值，让读者确信这篇文章值得花时间深入阅读。

第三步：创作主体章节（核心论述）

- 章节标题： 根据视频的核心内容，将其拆解为2-4个逻辑连贯、层层递进的主题。为每一个主题创作一个精准、凝练、能体现其观点的小标题。
- 内容要求：
  - 这是文章的主体。你需要用充满洞察力的语言，将每个主题详细、生动地展开。多使用比喻、案例和追问来深化论述。
  - 当遇到方法论或操作流程时，请将其逻辑和步骤融入到连贯的段落描述中。通过分析每一步的" ++
  [DQ] ++
  txt "为什么" ++
  [DQ] ++
  txt "，让读者不仅知其然，更知其所以然。
  - 确保章节之间的过渡平滑且富有逻辑性，引导读者自然地从一个论点走向下一个更深的论点。

第四步：创作升华章节（抽象与提炼）

- 章节标题： 这个章节的标题应该直接点出你提炼出的核心框架、思维模型或底层逻辑的名称，例如" ++
  [DQ] ++
  txt "'机会密度'框架：如何发现隐藏的价值" ++
  [DQ] ++
  txt "或" ++
  [DQ] ++
  txt "成长的关键：建立你的'反馈飞轮'" ++
  [DQ] ++
  txt "。
- 内容要求：
  - 从前面的具体论述中，精准地抽象出最具普适性和启发性的框架或心智模型。
  - 用清晰、优雅的语言，深入阐释这个模型的构成要素、运转原理及其背后的哲学。
  - 重点不在于罗列定义，而在于生动地描绘出读者如何在自己的生活和工作中应用这个模型，从而获得思维上的跃迁。

第五步：创作结尾章节（回响与余味）

- 章节标题： 创作一个富有哲理或前瞻性的标题，为全文画上一个有力的句号。
- 内容要求：
  - 用精炼的语言，重新点亮文章的核心主旨，让读者产生一种" ++
  [DQ] ++
  txt "原来如此" ++
  [DQ] ++
  txt "的顿悟感。
  - 将文章的观点延伸至更广阔的领域，或留给读者一个开放性的、值得长期思考的问题。
  - 目标是让读者在合上文章后，脑海中仍有余音，心中仍有回响。

全局风格与限制：

- 文体流畅： 优先使用完整的段落进行叙述。**原则上不使用项目符号 (bullet points)**，除非在极少数情况下，用于并列呈现几个无法用段落替代的关键词或短语，且能极大增强表达清晰度时，方可破例。
- 口吻自信： 以一位独立的创作者和思想家的口吻进行写作，而不是作为视频的" ++
  [DQ] ++
  txt "介绍者" ++
  [DQ] ++
  txt "。完全隐去" ++
  [DQ] ++
  txt "视频中提到" ++
  [DQ] ++
  txt "、" ++
  [DQ] ++
  txt "作者认为" ++
  [DQ] ++
  txt "等中介性表述。
- 忠于思想，不限于形式： 可以在不增加新事实的前提下，对原视频的论述顺序进行优化重组，以达到最佳的阅读和逻辑体验。
- 专有名词处理： 保留原文专有名词，并在首次出现时于括号内提供中文翻译。
- 纯粹输出： 最终交付的内容应只有纯粹的文章本身，不包含任何关于指令（如字数要求）或创作过程的元语言。

请基于以下视频内容创作博客文章：

".

(** [self.blog_prompt.format(content=full_content)] *)
Definition blog_prompt_format (full_content : str) : str :=
  blog_prompt_head ++ full_content.

Section Generate.

Variables (exn svc : Type).
Variable generate_completion : request -> M exn svc (option str).

(** [BlogGenerator.generate]: the whole body is inside [try]. *)
Definition generate (content : str) (video_info : dict) (max_tokens : Z)
  : M exn svc (option str) :=
  try_except
    (let full_content :=
       txt "
视频标题：" ++ get video_info "title" (txt "未知") ++
       txt "
视频作者：" ++ get video_info "uploader" (txt "未知") ++
       txt "
视频链接：" ++ get video_info "url" [] ++
       txt "
视频平台：" ++ get video_info "platform" (txt "未知") ++
       txt "

视频内容：
" ++ content ++
       txt "
" in
     let system_prompt := txt "你是一位顶级的深度内容创作者与思想转述者。" in
     let user_prompt := blog_prompt_format full_content in
     blog_content <-
       generate_completion (Request system_prompt user_prompt (8 # 10)%Q max_tokens) ;;
     if truthy blog_content then ret blog_content else ret None)
    (fun _ => ret None).

End Generate.

(** The five patterns of [format_blog]. *)

(** [^[\n\s]*思想来源\s*\([^)]*\):[^\n]*\n原始视频\s*\([^)]*\):[^\n]*\n]
    with [re.MULTILINE] *)
Definition re_preamble_annotated : regex :=
  Cat [Bol; Star true (Cls (fun c => eqc c NL || isspace c));
       Lit (txt "思想来源"); Star true (Cls isspace);
       Chr LPAR; Star true (Cls (not_ RPAR)); Chr RPAR; Chr COLON;
       Star true (Cls (not_ NL)); Chr NL;
       Lit (txt "原始视频"); Star true (Cls isspace);
       Chr LPAR; Star true (Cls (not_ RPAR)); Chr RPAR; Chr COLON;
       Star true (Cls (not_ NL)); Chr NL].

(** [^[\n\s]*思想来源:[^\n]*\n原始视频:[^\n]*\n] with [re.MULTILINE] *)
Definition re_preamble_plain : regex :=
  Cat [Bol; Star true (Cls (fun c => eqc c NL || isspace c));
       Lit (txt "思想来源:"); Star true (Cls (not_ NL)); Chr NL;
       Lit (txt "原始视频:"); Star true (Cls (not_ NL)); Chr NL].

(** [\n*---\n*\*\*文章元信息\*\*.*$] with [re.DOTALL] *)
Definition re_footer_block : regex :=
  Cat [Star true (Chr NL); Lit (txt "---"); Star true (Chr NL);
       Lit (txt "**文章元信息**"); Star true Dot; Eol].

(** [\n*- 思想来源.*?\n- 原始视频.*?\n.*$] with [re.DOTALL] *)
Definition re_bullet_block : regex :=
  Cat [Star true (Chr NL); Lit (txt "- 思想来源"); Star false Dot;
       Lit (NL :: txt "- 原始视频"); Star false Dot; Chr NL;
       Star true Dot; Eol].

(** [\n*---\n*\*本文由 AI 辅助创作.*$] with [re.DOTALL] *)
Definition re_disclaimer : regex :=
  Cat [Star true (Chr NL); Lit (txt "---"); Star true (Chr NL);
       Lit (txt "*本文由 AI 辅助创作"); Star true Dot; Eol].

(** The stripping chain of [format_blog]: [content_cleaned] before the
    footer is appended. *)
Definition content_cleaned (content : str) : str :=
  let c := strip (sub multiline_flags re_preamble_annotated [] None content) in
  let c := strip (sub multiline_flags re_preamble_plain [] None c) in
  let c := strip (sub dotall_flags re_footer_block [] None c) in
  let c := strip (sub dotall_flags re_bullet_block [] None c) in
  strip (sub dotall_flags re_disclaimer [] None c).

Definition footer (video_info : dict) : str :=
  txt "

---

**文章元信息**

- 思想来源 (Source of Inspiration): " ++ get video_info "uploader" (txt "未知创作者") ++
  txt "
- 原始视频 (Original Video): " ++ get video_info "url" [] ++
  txt "
- 视频平台 (Platform): " ++ get video_info "platform" (txt "未知") ++
  txt "
- 文章生成时间: " ++ get video_info "timestamp" [] ++
  txt "

---

*本文由 AI 辅助创作，基于视频内容深度重构而成。*
".

(** [BlogGenerator.format_blog] *)
Definition format_blog (content : str) (video_info : dict) : str :=
  content_cleaned content ++ footer video_info.

End Blog.

(** ** generators/xiaohongshu.py *)

Module Xiaohongshu.

(** [_build_title_system_prompt] *)
Definition _build_title_system_prompt : str :=
  txt "## 小红书爆款标题生成专家

### 角色设定
你是一名资深的小红书标题大师。
你精通各种爆款标题创作技巧。
你擅长用标题瞬间抓住用户注意力。

### 标题创作技能

你掌握以下5种标题创作方法：
1. **数字法则**：用具体数字增加可信度（如" ++
  [DQ] ++
  txt "7天" ++
  [DQ] ++
  txt "、" ++
  [DQ] ++
  txt "3个方法" ++
  [DQ] ++
  txt "）
2. **二极管标题**：制造强烈反差和对比效果
3. **疑问句式**：激发好奇心（如" ++
  [DQ] ++
  txt "为什么..." ++
  [DQ] ++
  txt "、" ++
  [DQ] ++
  txt "怎么..." ++
  [DQ] ++
  txt "）
4. **情绪共鸣**：使用高唤起情绪词，瞬间唤醒用户共鸣
5. **利益驱动**：直击痛点或利益点

【7大爆款标题风格】
- 数字悬念型：【3个懒人收纳法，房间一周不乱！】
- 情感共鸣型：【谁懂啊！这碗面直接治愈了我的周一！】
- 结果导向型：【跟着博主做，7天搞定Python基础！】
- 反差对比型：【从烂脸到水光肌，我只做了这两件事】
- 稀缺信息型：【这10个上海小众秘境，90%的人没去过】
- 对话互动型：【你的枕头选对了吗？快来对照这份指南！】
- 价值宣言型：【2025年投资自己，这3项技能最值钱】

### 平台禁忌词（严禁使用）
【诱导类】速来、必看、必收、千万不要、马上、抓紧、最后一波
【夸大类】全网第一、最全、最强、史上、终极、完美、天花板、封神
【营销类】免费送、0元购、薅羊毛、福利、红包、点击领取、价格感人
【负面类】丑哭、踩雷、血亏、别买、避坑、垃圾、后悔、翻车

### 标题创作要求
1. 每个标题使用不同的爆款标题风格
2. 严禁使用平台禁忌词
3. emoji优先用✨🔥✅💡❗️😭🤔💪，每个标题最多2个
4. 避免" ++
  [DQ] ++
  txt "XX分享" ++
  [DQ] ++
  [DQ] ++
  txt "XX笔记" ++
  [DQ] ++
  txt "等无效词
5. 使用" ++
  [DQ] ++
  txt "亲测" ++
  [DQ] ++
  [DQ] ++
  txt "试过" ++
  [DQ] ++
  [DQ] ++
  txt "我发现" ++
  [DQ] ++
  txt "等真实感表述
6. 每个标题字数控制在20字以内
7. 标题要有吸引力，让人忍不住点进来看".

(** [_build_title_user_prompt]: the f-string embeds [content[:500]]. *)
Definition _build_title_user_prompt (content : str) : str :=
  txt "请根据以下内容，生成5个不同风格的小红书爆款标题。

内容概要：
" ++ firstn 500 content ++
  txt "...

要求：
1. 生成5个标题，每个使用不同的爆款标题风格
2. 直接输出5个标题，每行一个，不要添加序号和说明
3. 严格遵守平台禁忌词规则
4. 每个标题字数控制在20字以内
5. 必须包含emoji，每个标题最多2个

示例格式：
数字迷雾大揭秘✨3个方法让你秒懂数字陷阱！
谁懂啊🤔这些数字问题把我绕晕了！
从被骗到透视💡7天学会识破数字套路
你真的懂数字吗❗️90%人都答错的题！
2025必学技能🔥数字思维让你更聪明

请开始生成：".

(** [_build_content_system_prompt] *)
Definition _build_content_system_prompt : str :=
  txt "## 小红书爆款正文生成专家

### 角色设定
你是一名资深的小红书爆款文案写手。
你精通小红书平台的内容创作规则。
你擅长创作高互动、高转化的种草文案。

### 正文创作技能

#### 1. 写作风格
- **语言风格**：像朋友聊天，真诚、直接、有温度
- **句式结构**：简单明了，主谓宾清晰，一句话一个意思
- **词汇选择**：大白话优先，专业术语必须解释
- **段落节奏**：每段2-3句，保持呼吸感

#### 2. 写作开篇方法
- **金句开场**：用一句话抓住注意力
- **痛点切入**：直接说出用户困扰
- **反转开场**：先说常见误区，再给出正确方法
- **故事引入**：用个人经历引发共鸣

#### 3. 文本结构
- **开头**：emoji+金句/痛点（1-2句话）
- **主体**：分点叙述，每点前加emoji，3-5个要点
- **每个要点包含**：具体方法+个人体验+效果说明
- **结尾**：总结+互动引导

#### 4. 互动引导方法
- **提问式**：" ++
  [DQ] ++
  txt "你们有遇到这种情况吗？" ++
  [DQ] ++
  txt "
- **征集式**：" ++
  [DQ] ++
  txt "评论区说说你的方法～" ++
  [DQ] ++
  txt "
- **行动式**：" ++
  [DQ] ++
  txt "赶紧收藏起来！" ++
  [DQ] ++
  txt "
- **共鸣式**：" ++
  [DQ] ++
  txt "姐妹们懂我的扣1！" ++
  [DQ] ++
  txt "

#### 5. 小技巧
- 使用" ++
  [DQ] ++
  txt "姐妹们" ++
  [DQ] ++
  txt "、" ++
  [DQ] ++
  txt "宝子们" ++
  [DQ] ++
  txt "等亲昵称呼
- 适当使用网络流行语和梗
- 多用" ++
  [DQ] ++
  txt "你、我、他" ++
  [DQ] ++
  txt "，少用" ++
  [DQ] ++
  txt "其、该、此、彼" ++
  [DQ] ++
  txt "
- 多用" ++
  [DQ] ++
  txt "真的" ++
  [DQ] ++
  txt "、" ++
  [DQ] ++
  txt "绝了" ++
  [DQ] ++
  txt "、" ++
  [DQ] ++
  txt "爱了" ++
  [DQ] ++
  txt "等语气词
- 用" ++
  [DQ] ++
  txt "第一、第二、第三" ++
  [DQ] ++
  txt "而不是" ++
  [DQ] ++
  txt "首先、其次、最后" ++
  [DQ] ++
  txt "

#### 6. 爆炸词库
**情绪类**：绝了、爱了、yyds、无敌、炸裂、疯狂、上头、氛围感
**效果类**：秒杀、碾压、吊打、封神、神仙、手残党必备
**程度类**：超级、巨、狂、暴、极致
**共鸣类**：懂的都懂、破防了、DNA动了、真实、太真实了

### 写作约束（严格执行）

**禁止使用以下内容**：
1. 不使用破折号（——）
2. 禁用" ++
  [DQ] ++
  txt "A而且B" ++
  [DQ] ++
  txt "的对仗结构
3. 不使用冒号（：），除非是对话或列表
4. 开头不用设问句
5. 一句话只表达一个完整意思
6. 每段不超过3句话
7. 避免嵌套从句和复合句
8. 多用" ++
  [DQ] ++
  txt "你、我、他" ++
  [DQ] ++
  txt "，少用" ++
  [DQ] ++
  txt "其、该、此、彼" ++
  [DQ] ++
  txt "

**改写策略**：
1. **长句拆短**：把复合句拆成多个简单句
2. **术语翻译**：把专业词汇翻译成大白话
3. **增加温度**：适当加入个人感受和真实体验
4. **逻辑清晰**：用" ++
  [DQ] ++
  txt "第一、第二、第三" ++
  [DQ] ++
  txt "标注顺序

### 创作要求
1. 内容真诚可信，把" ++
  [DQ] ++
  txt "真诚" ++
  [DQ] ++
  txt "摆在第一位
2. 避免假大空，花里胡哨的内容
3. 保持小红书社区调性，注重用户体验
4. 正文控制在600-800字之间
5. 在文末添加5-10个相关标签（用#号开头）".

(** [_build_content_user_prompt]: the f-string embeds [title] and
    [content]. *)
Definition _build_content_user_prompt (content title : str) : str :=
  txt "请根据以下标题和内容，创作一篇爆款小红书正文。

标题：
" ++ title ++
  txt "

内容：
" ++ content ++
  txt "

---

【极其重要：关于列表的绝对禁令】
绝对禁止使用任何形式的项目符号、编号列表或bullet points，包括但不限于：
- 星号（*）开头的列表
- 横杠（-）开头的列表
- 数字编号（1.、2.、3.）的列表
- 任何形式的条目化表述

所有内容必须使用连贯的段落形式，用" ++
  [DQ] ++
  txt "第一" ++
  [DQ] ++
  txt "、" ++
  [DQ] ++
  txt "第二" ++
  [DQ] ++
  txt "、" ++
  [DQ] ++
  txt "第三" ++
  [DQ] ++
  txt "等词语自然串联。

❌ 错误示例（使用了列表）：
这些问题包括：
* 问题1
* 问题2
* 问题3

✅ 正确示例（使用段落）：
这些问题包括三个方面。第一是问题1的内容。第二是问题2的描述。第三则是问题3的解释。

---

创作要求：
开篇方法：选择金句开场/痛点切入/反转开场/故事引入之一
文本结构：开头（emoji+金句1-2句）→ 主体（3-5个要点用段落展开，每段前加emoji）→ 结尾（总结+互动引导）
写作风格：像朋友聊天，真诚、直接、有温度
句式要求：简单明了，一句话一个意思，每段2-3句话
称呼使用：" ++
  [DQ] ++
  txt "姐妹们" ++
  [DQ] ++
  txt "、" ++
  [DQ] ++
  txt "宝子们" ++
  [DQ] ++
  txt "等亲昵称呼
语气词：多用" ++
  [DQ] ++
  txt "真的" ++
  [DQ] ++
  txt "、" ++
  [DQ] ++
  txt "绝了" ++
  [DQ] ++
  txt "、" ++
  [DQ] ++
  txt "爱了" ++
  [DQ] ++
  txt "等
人称使用：多用" ++
  [DQ] ++
  txt "你、我、他" ++
  [DQ] ++
  txt "，少用" ++
  [DQ] ++
  txt "其、该、此、彼" ++
  [DQ] ++
  txt "
互动引导：2-3处自然的互动问句
正文控制在600-800字之间
文末添加5-10个相关标签（用#号开头，每个标签另起一行）

写作约束（严格禁止）：
- 绝对不使用任何形式的项目符号或编号列表
- 不使用破折号（——）
- 禁用" ++
  [DQ] ++
  txt "A而且B" ++
  [DQ] ++
  txt "的对仗结构
- 尽量避免使用冒号（：），用句号代替
- 开头不用设问句
- 避免嵌套从句和复合句
- 所有内容都用自然段落呈现

请直接输出正文内容，不要包含标题。".

(** [^\d+[.、)\]]\s*] *)
Definition re_ordinal : regex :=
  Cat [Bol; Plus true (Cls isdecimal); Cls (one_of (txt ".、)]"));
       Star true (Cls isspace)].

(** [^\[?标题\d*\]?\s*] with [re.IGNORECASE], which changes nothing here:
    no character of the pattern is cased. *)
Definition re_title_mark : regex :=
  Cat [Bol; Opt (Chr LBRK); Lit (txt "标题"); Star true (Cls isdecimal);
       Opt (Chr RBRK); Star true (Cls isspace)].

(** [^[-*]\s*] *)
Definition re_bullet : regex :=
  Cat [Bol; Cls (one_of [DASH; STAR]); Star true (Cls isspace)].

(** [[^\s#]] *)
Definition tagchar (c : char) : bool := negb (isspace c) && negb (eqc c HASH).

(** [#([^\s#]+)] *)
Definition re_tag : regex := Cat [Chr HASH; Grp (Plus true (Cls tagchar))].

(** The body of the loop of [_generate_titles] up to the test: the line
    stripped, then the three leading markers removed in turn. *)
Definition clean_line (line : str) : str :=
  let line := strip line in
  let line := sub no_flags re_ordinal [] None line in
  let line := sub no_flags re_title_mark [] None line in
  sub no_flags re_bullet [] None line.

(** [line and len(line) > 5 and len(line) < 50] *)
Definition accepted (line : str) : bool :=
  negb (is_nil line) && (5 <? length line) && (length line <? 50).

(** The [for] loop of [_generate_titles] over [result.split('\n')]. *)
Definition title_loop (lines : list str) : list str :=
  fold_left
    (fun titles line =>
       let line := clean_line line in
       if accepted line then titles ++ [line] else titles)
    lines [].

(** [_extract_tags] *)
Definition _extract_tags (content : str) : list str :=
  let tag_matches := findall no_flags re_tag content in
  match tag_matches with
  | [] => []
  | _ => tag_matches
  end.

Definition placeholder_title : str := txt "小红书笔记".

Section Generate.

Variables (exn svc : Type).
Variable generate_completion : request -> M exn svc (option str).

(** [_generate_titles] *)
Definition _generate_titles (content : str) : M exn svc (list str) :=
  let system_prompt := _build_title_system_prompt in
  let user_prompt := _build_title_user_prompt content in
  result <- generate_completion (Request system_prompt user_prompt (8 # 10)%Q 500%Z) ;;
  match result with
  | Some ((_ :: _) as result) =>
      let titles := title_loop (split_chr NL result) in
      ret (firstn 5 titles)
  | _ => ret []
  end.

(** [_generate_content] *)
Definition _generate_content (content title : str) (max_tokens : Z)
  : M exn svc str :=
  let system_prompt := _build_content_system_prompt in
  let user_prompt := _build_content_user_prompt content title in
  result <- generate_completion (Request system_prompt user_prompt (7 # 10)%Q max_tokens) ;;
  ret (match result with
       | Some ((_ :: _) as result) => result
       | _ => []
       end).

(** [XiaohongshuGenerator.generate]: nothing here is inside a [try]. *)
Definition generate (content : str) (max_tokens : Z)
  : M exn svc (str * list str * list str) :=
  titles <- _generate_titles content ;;
  let titles := match titles with [] => [placeholder_title] | _ => titles end in
  let main_title := match titles with t :: _ => t | [] => placeholder_title end in
  xiaohongshu_content <- _generate_content content main_title max_tokens ;;
  match xiaohongshu_content with
  | [] => ret (content, titles, [])
  | _ =>
      let tags := _extract_tags xiaohongshu_content in
      ret (xiaohongshu_content, titles, tags)
  end.

End Generate.

(** [一[.、]\s*标题(.*?)二[.、]\s*正文] with [re.DOTALL] *)
Definition re_title_section : regex :=
  Cat [Lit (txt "一"); Cls (one_of (txt ".、")); Star true (Cls isspace);
       Lit (txt "标题"); Grp (Star false Dot);
       Lit (txt "二"); Cls (one_of (txt ".、")); Star true (Cls isspace);
       Lit (txt "正文")].

(** [^\[标题\d+\]\s*] *)
Definition re_title_tag : regex :=
  Cat [Bol; Chr LBRK; Lit (txt "标题"); Plus true (Cls isdecimal); Chr RBRK;
       Star true (Cls isspace)].

(** The first loop of [_parse_result], over the lines of the title
    section. *)
Definition section_loop (lines : list str) : list str :=
  fold_left
    (fun titles line =>
       let line := strip line in
       let line := sub no_flags re_ordinal [] None line in
       let line := sub no_flags re_title_tag [] None line in
       if negb (is_nil line) && negb (startswith [HASH] line)
       then titles ++ [line] else titles)
    lines [].

(** The second loop of [_parse_result], which leaves with [break] at the
    fifth title. *)
Fixpoint fallback_loop (lines : list str) (titles : list str) : list str :=
  match lines with
  | [] => titles
  | line :: lines' =>
      let line := strip line in
      if negb (is_nil line) && negb (startswith [HASH] line)
         && negb (contains (txt "正文") line) && negb (contains (txt "标题") line)
         && (5 <? length line)
      then
        let line := sub no_flags re_ordinal [] None line in
        match line with
        | [] => fallback_loop lines' titles
        | _ =>
            let titles := titles ++ [line] in
            if 5 <=? length titles then titles else fallback_loop lines' titles
        end
      else fallback_loop lines' titles
  end.

(** [_parse_result] *)
Definition _parse_result (result : str) : list str * list str :=
  let titles :=
    match search dotall_flags re_title_section result with
    | Some m =>
        let title_section := strip (match m_grp m with Some g => g | None => [] end) in
        section_loop (split_chr NL title_section)
    | None => []
    end in
  let titles :=
    match titles with
    | [] => fallback_loop (firstn 10 (split_chr NL result)) []
    | _ => titles
    end in
  let tags := findall no_flags re_tag result in
  (titles, tags).

(** [^#\s+.*?\n] *)
Definition re_heading : regex :=
  Cat [Bol; Chr HASH; Plus true (Cls isspace); Star false Dot; Chr NL].

(** [\n\n---\n\n#.*$] with [re.DOTALL] *)
Definition re_rule_tags : regex :=
  Cat [Lit ([NL; NL] ++ txt "---" ++ [NL; NL; HASH]); Star true Dot; Eol].

(** [\n\n(G)+$] where the group [G] is [#[^\s#]+\s*] *)
Definition re_trailing_tags : regex :=
  Cat [Chr NL; Chr NL;
       Plus true (Grp (Cat [Chr HASH; Plus true (Cls tagchar);
                            Star true (Cls isspace)]));
       Eol].

(** The three cleaning steps at the head of [format_note]. *)
Definition content_cleaned (content : str) : str :=
  let c := strip (sub no_flags re_heading [] (Some 1) content) in
  let c := sub dotall_flags re_rule_tags [] None c in
  strip (sub no_flags re_trailing_tags [] None c).

(** [f"{i}. {t}" for i, t in enumerate(all_titles, i)] *)
Fixpoint numbered (i : nat) (all_titles : list str) : list str :=
  match all_titles with
  | [] => []
  | t :: l => (str_of_nat i ++ txt ". " ++ t) :: numbered (S i) l
  end.

(** [XiaohongshuGenerator.format_note]; [all_titles] defaults to [None]. *)
Definition format_note (content title : str) (tags images : list str)
           (all_titles : option (list str)) : str :=
  let content_cleaned := content_cleaned content in
  let output : list str := [] in
  let output :=
    match all_titles with
    | Some l =>
        if 1 <? length l
        then output ++ [txt "# 备选标题" ++ [NL]] ++ numbered 1 l
                    ++ [[NL] ++ txt "---" ++ [NL]]
        else output
    | None => output
    end in
  let output := output ++ [txt "# " ++ title ++ [NL]] in
  let output :=
    match images with
    | i0 :: _ => output ++ [txt "![封面图](" ++ i0 ++ txt ")" ++ [NL]]
    | [] => output
    end in
  let content_parts := split_go [NL; NL] 0 content_cleaned in
  let mid_point := length content_parts / 2 in
  let output := output ++ [join [NL; NL] (firstn mid_point content_parts)] in
  let output := output ++ [[NL]] in
  let output :=
    match images with
    | _ :: i1 :: _ => output ++ [[NL] ++ txt "![配图](" ++ i1 ++ txt ")" ++ [NL]]
    | _ => output
    end in
  let output := output ++ [join [NL; NL] (skipn mid_point content_parts)] in
  let output :=
    match images with
    | _ :: _ :: i2 :: _ => output ++ [[NL; NL] ++ txt "![配图](" ++ i2 ++ txt ")"]
    | _ => output
    end in
  let output :=
    match tags with
    | [] => output
    | _ => output ++ [[NL; NL] ++ txt "---" ++ [NL]]
                  ++ [join [NL] (map (fun tag => HASH :: tag) tags)]
    end in
  join [NL] output.

End Xiaohongshu.

(** * Properties *)

(** ** The orchestration flows *)

Section Flows.

Variables (exn svc : Type).
Variable generate_completion : request -> M exn svc (option str).

Local Abbreviation blog_generate := (Blog.generate generate_completion).
Local Abbreviation generate := (Xiaohongshu.generate generate_completion).
Local Abbreviation _generate_titles := (Xiaohongshu._generate_titles generate_completion).
Local Abbreviation _generate_content := (Xiaohongshu._generate_content generate_completion).

(** The long-form flow returns whatever the service does: text, [None],
    or an exception, which the [try] turns into [None]. *)
Lemma blog_generate_returns (content : str) (video_info : dict) (max_tokens : Z)
      (s : svc) :
  exists r s', blog_generate content video_info max_tokens s = (Returns r, s').
Proof.
  unfold Blog.generate, try_except, bind.
  destruct (generate_completion _ s) as [[r | e] s'].
  - destruct (truthy r); unfold ret; eauto.
  - unfold ret; eauto.
Qed.

(** A failure of the service in the long-form flow comes back as [None]. *)
Lemma blog_generate_failure (content : str) (video_info : dict) (max_tokens : Z)
      (s : svc) (r : option str) (s' : svc) :
  blog_generate content video_info max_tokens s = (Returns r, s') ->
  r = None \/ exists c x, r = Some (c :: x).
Proof.
  unfold Blog.generate, try_except, bind.
  destruct (generate_completion _ s) as [[[[|c x]|] | e] s0]; simpl; unfold ret;
    intros H; inversion H; subst; eauto.
Qed.

(** The request of the headline phase and of the body phase. *)
Definition title_request (content : str) : request :=
  Request Xiaohongshu._build_title_system_prompt
          (Xiaohongshu._build_title_user_prompt content) (8 # 10)%Q 500%Z.

Definition content_request (content title : str) (max_tokens : Z) : request :=
  Request Xiaohongshu._build_content_system_prompt
          (Xiaohongshu._build_content_user_prompt content title) (7 # 10)%Q max_tokens.

(** The headline list after the check [if not titles]. *)
Definition with_placeholder (titles : list str) : list str :=
  match titles with
  | [] => [Xiaohongshu.placeholder_title]
  | _ => titles
  end.

Definition primary (titles : list str) : str :=
  hd Xiaohongshu.placeholder_title (with_placeholder titles).

Lemma with_placeholder_not_nil (titles : list str) : with_placeholder titles <> [].
Proof. destruct titles; simpl; discriminate. Qed.

(** What [generate] does once the headline phase has returned. *)
Lemma generate_after_titles (content : str) (max_tokens : Z) (s s1 : svc)
      (ts : list str) :
  _generate_titles content s = (Returns ts, s1) ->
  generate content max_tokens s =
  match generate_completion (content_request content (primary ts) max_tokens) s1 with
  | (Returns (Some (c :: x)), s2) =>
      (Returns (c :: x, with_placeholder ts, Xiaohongshu._extract_tags (c :: x)), s2)
  | (Returns _, s2) => (Returns (content, with_placeholder ts, []), s2)
  | (Raises e, s2) => (Raises e, s2)
  end.
Proof.
  intros H. unfold Xiaohongshu.generate, bind at 1. rewrite H.
  unfold Xiaohongshu._generate_content, bind, content_request, primary, with_placeholder.
  destruct ts as [|t ts']; simpl;
    match goal with |- context [generate_completion ?q s1] =>
      destruct (generate_completion q s1) as [[[[|c x]|]|e] s2] end; reflexivity.
Qed.

(** The headline phase raises exactly when the service does. *)
Lemma generate_titles_cases (content : str) (s : svc) :
  match generate_completion (title_request content) s with
  | (Returns (Some (c :: x)), s1) =>
      _generate_titles content s =
      (Returns (firstn 5 (Xiaohongshu.title_loop (split_chr NL (c :: x)))), s1)
  | (Returns _, s1) => _generate_titles content s = (Returns [], s1)
  | (Raises e, s1) => _generate_titles content s = (Raises e, s1)
  end.
Proof.
  unfold Xiaohongshu._generate_titles, bind, title_request.
  destruct (generate_completion _ s) as [[[[|c x]|]|e] s1]; reflexivity.
Qed.

End Flows.

(** ** Facts about strings *)

(** The character before the position reached after reading [u]. *)
Fixpoint lastc (prev : option char) (u : str) : option char :=
  match u with
  | [] => prev
  | c :: u' => lastc (Some c) u'
  end.

Lemma lastc_app (prev : option char) (u v : str) :
  lastc prev (u ++ v) = lastc (lastc prev u) v.
Proof. revert prev; induction u as [|c u IH]; intros prev; simpl; auto. Qed.

Lemma lastc_cons_some (prev : option char) (c : char) (u : str) :
  exists d, lastc prev (c :: u) = Some d.
Proof.
  simpl. generalize c. induction u as [|e u IH]; intros c0; simpl; eauto.
Qed.

Lemma eqc_true (a b : char) : eqc a b = true <-> a = b.
Proof. apply N.eqb_eq. Qed.

Lemma eqc_refl (a : char) : eqc a a = true.
Proof. apply N.eqb_refl. Qed.

Lemma eqc_sym (a b : char) : eqc a b = eqc b a.
Proof. apply N.eqb_sym. Qed.

Lemma startswith_app (p s : str) : startswith p (p ++ s) = true.
Proof. induction p as [|a p IH]; simpl; auto. rewrite eqc_refl; auto. Qed.

Lemma startswith_true (p s : str) :
  startswith p s = true <-> exists t, s = p ++ t.
Proof.
  split.
  - revert s; induction p as [|a p IH]; intros s H; simpl in *.
    + exists s; reflexivity.
    + destruct s as [|b s]; [discriminate|].
      apply andb_true_iff in H as [E H]. apply eqc_true in E; subst b.
      destruct (IH _ H) as [t ->]. exists t; reflexivity.
  - intros [t ->]. apply startswith_app.
Qed.

Lemma startswith_skipn (p s : str) :
  startswith p s = true -> s = p ++ skipn (length p) s.
Proof.
  intros H. apply startswith_true in H as [t ->].
  rewrite skipn_app, skipn_all, Nat.sub_diag. reflexivity.
Qed.

Lemma skipn_app_exact (u v : str) : skipn (length u) (u ++ v) = v.
Proof. rewrite skipn_app, skipn_all, Nat.sub_diag. reflexivity. Qed.

Lemma dropWhile_takeWhile (p : char -> bool) (s : str) :
  takeWhile p s ++ dropWhile p s = s.
Proof. induction s as [|c s IH]; simpl; auto. destruct (p c); simpl; congruence. Qed.

Lemma takeWhile_all (p : char -> bool) (s : str) : forallb p (takeWhile p s) = true.
Proof. induction s as [|c s IH]; simpl; auto. destruct (p c) eqn:E; simpl; auto. rewrite E; auto. Qed.

Lemma dropWhile_head (p : char -> bool) (s : str) :
  match dropWhile p s with
  | [] => True
  | c :: _ => p c = false
  end.
Proof. induction s as [|c s IH]; simpl; auto. destruct (p c) eqn:E; auto. Qed.

Lemma dropWhile_app_all (p : char -> bool) (u v : str) :
  forallb p u = true -> dropWhile p (u ++ v) = dropWhile p v.
Proof.
  induction u as [|c u IH]; simpl; auto. intros H.
  apply andb_true_iff in H as [-> H]. auto.
Qed.

Lemma takeWhile_app_all (p : char -> bool) (u v : str) :
  forallb p u = true -> takeWhile p (u ++ v) = u ++ takeWhile p v.
Proof.
  induction u as [|c u IH]; simpl; auto. intros H.
  apply andb_true_iff in H as [-> H]. rewrite IH; auto.
Qed.

Lemma dropWhile_stop (p : char -> bool) (c : char) (s : str) :
  p c = false -> dropWhile p (c :: s) = c :: s.
Proof. simpl; intros ->; reflexivity. Qed.

Ltac app_norm :=
  repeat first [rewrite <- app_assoc | progress cbn [app]].

Ltac len_solve :=
  repeat first [rewrite length_app | progress cbn [length app]]; lia.

(** [v] does not go on a run of [p]. *)
Definition stops (p : char -> bool) (v : str) : Prop :=
  match v with
  | [] => True
  | c :: _ => p c = false
  end.

Lemma takeWhile_stops (p : char -> bool) (u v : str) :
  forallb p u = true -> stops p v -> takeWhile p (u ++ v) = u.
Proof.
  intros Hu Hv. rewrite takeWhile_app_all by assumption.
  destruct v as [|c v]; simpl in *; [|rewrite Hv]; apply app_nil_r.
Qed.

Lemma dropWhile_stops (p : char -> bool) (u v : str) :
  forallb p u = true -> stops p v -> dropWhile p (u ++ v) = v.
Proof.
  intros Hu Hv. rewrite dropWhile_app_all by assumption.
  destruct v as [|c v]; simpl in *; [|rewrite Hv]; reflexivity.
Qed.

(** White space and decimal digits are apart. *)
Lemma isspace_cases (c : char) :
  isspace c = true ->
  In c [9; 10; 11; 12; 13; 28; 29; 30; 31; 32; 133; 160; 5760; 8192; 8193; 8194;
        8195; 8196; 8197; 8198; 8199; 8200; 8201; 8202; 8232; 8233; 8239; 8287;
        12288]%N.
Proof.
  unfold isspace. rewrite !orb_true_iff, !andb_true_iff, !N.leb_le, !N.eqb_eq.
  simpl. lia.
Qed.

Lemma isdecimal_not_space (c : char) : isdecimal c = true -> isspace c = false.
Proof.
  intros H. destruct (isspace c) eqn:E; [|reflexivity].
  apply isspace_cases in E. simpl in E.
  repeat (destruct E as [E|E]; [subst c; vm_compute in H; discriminate|]).
  contradiction.
Qed.

Lemma lstrip_id (s : str) : stops isspace s -> lstrip s = s.
Proof. destruct s as [|c s]; cbn; auto. intros ->. reflexivity. Qed.

Lemma rstrip_id (s : str) : stops isspace (rev s) -> rstrip s = s.
Proof.
  unfold rstrip. intros H. destruct (rev s) as [|c t] eqn:E.
  - simpl. apply (f_equal (@rev char)) in E. rewrite rev_involutive in E. auto.
  - cbn in *. rewrite H. rewrite <- E. apply rev_involutive.
Qed.

Lemma strip_id (s : str) :
  stops isspace s -> stops isspace (rev s) -> strip s = s.
Proof. intros H1 H2. unfold strip. rewrite lstrip_id by assumption. apply rstrip_id; auto. Qed.

Lemma takeWhile_true (p : char -> bool) (s : str) :
  (forall x, p x = true) -> takeWhile p s = s /\ dropWhile p s = [].
Proof.
  intros H. induction s as [|c s [IH1 IH2]]; cbn; auto. rewrite H, IH1, IH2. auto.
Qed.

Lemma dropWhile_keep (p : char -> bool) (u : str) (c : char) (v : str) :
  p c = false -> dropWhile p (u ++ c :: v) = dropWhile p u ++ c :: v.
Proof.
  intros Hc. induction u as [|x u IH]; cbn [app dropWhile].
  - rewrite Hc. reflexivity.
  - destruct (p x); [exact IH|reflexivity].
Qed.

(** Trailing white space is only looked for behind the last character
    that is not white space. *)
Lemma rstrip_app_keep (a : str) (c : char) (w : str) :
  isspace c = false -> rstrip (a ++ c :: w) = a ++ c :: rstrip w.
Proof.
  intros Hc. unfold rstrip.
  rewrite rev_app_distr. cbn [rev]. rewrite <- app_assoc. cbn [app].
  rewrite dropWhile_keep by assumption.
  rewrite rev_app_distr. cbn [rev]. rewrite rev_involutive.
  rewrite <- app_assoc. reflexivity.
Qed.

Lemma lstrip_stops (s : str) : stops isspace (lstrip s).
Proof. apply dropWhile_head. Qed.

Lemma rstrip_stops (s : str) : stops isspace (rev (rstrip s)).
Proof. unfold rstrip. rewrite rev_involutive. apply dropWhile_head. Qed.

Lemma rstrip_keeps_start (s : str) : stops isspace s -> stops isspace (rstrip s).
Proof.
  destruct s as [|c s]; intros H.
  - exact I.
  - cbn in H. pose proof (rstrip_app_keep [] c s H) as E. cbn [app] in E.
    rewrite E. exact H.
Qed.

Lemma strip_stops (s : str) :
  stops isspace (strip s) /\ stops isspace (rev (strip s)).
Proof.
  unfold strip. split; [apply rstrip_keeps_start, lstrip_stops|apply rstrip_stops].
Qed.

Lemma strip_idem (s : str) : strip (strip s) = strip s.
Proof. apply strip_id; apply strip_stops. Qed.

(** What stripping leaves is a piece of the text. *)
Lemma lstrip_suffix (s : str) : exists u, s = u ++ lstrip s.
Proof. exists (takeWhile isspace s). symmetry. apply dropWhile_takeWhile. Qed.

Lemma rstrip_prefix (s : str) : exists w, s = rstrip s ++ w.
Proof.
  unfold rstrip. exists (rev (takeWhile isspace (rev s))).
  rewrite <- rev_app_distr, dropWhile_takeWhile. symmetry. apply rev_involutive.
Qed.

Lemma strip_piece (s : str) : exists u w, s = u ++ strip s ++ w.
Proof.
  unfold strip. destruct (lstrip_suffix s) as [u Hu].
  destruct (rstrip_prefix (lstrip s)) as [w Hw].
  exists u, w. rewrite <- Hw. exact Hu.
Qed.

Lemma startswith_app_false (p s t : str) :
  startswith p (s ++ t) = false -> startswith p s = false.
Proof.
  revert s; induction p as [|a p IH]; intros s; [discriminate|].
  destruct s as [|b s]; [reflexivity|]. cbn [app startswith].
  destruct (eqc a b); [apply IH|reflexivity].
Qed.

Lemma contains_app (p u v : str) :
  contains p (u ++ v) = false -> contains p u = false /\ contains p v = false.
Proof.
  induction u as [|c u IH]; intros H.
  - split; [|exact H]. cbn [app] in H. destruct p; [|reflexivity].
    destruct v; discriminate.
  - cbn [app contains] in *. apply orb_false_iff in H as [H1 H2].
    apply IH in H2 as [H2 H3]. rewrite H2.
    rewrite (startswith_app_false p (c :: u) v H1). auto.
Qed.

Lemma contains_piece (p u s w : str) :
  contains p (u ++ s ++ w) = false -> contains p s = false.
Proof.
  intros H. apply contains_app in H as [_ H]. apply contains_app in H as [H _]. exact H.
Qed.

(** ** Facts about the matcher *)

Section MatcherFacts.

Variable fl : flags.

(** The loop of a repetition, named. *)
Definition star_loop (A : Type) (a : regex) (greedy : bool) (k : kont A)
  : nat -> option char -> str -> option str -> option A :=
  fix loop (n : nat) (prev : option char) (s : str) (g : option str)
      {struct n} : option A :=
    match n with
    | O => k prev s g
    | S n' =>
        let more (_ : unit) :=
          rmatch fl a prev s g
            (fun p' s' g' =>
               if length s' <? length s then loop n' p' s' g' else None) in
        if greedy then
          match more tt with
          | Some x => Some x
          | None => k prev s g
          end
        else
          match k prev s g with
          | Some x => Some x
          | None => more tt
          end
    end.

Lemma rmatch_Star (A : Type) (greedy : bool) (a : regex) (prev : option char)
      (s : str) (g : option str) (k : kont A) :
  rmatch fl (Star greedy a) prev s g k = star_loop a greedy k (length s) prev s g.
Proof. reflexivity. Qed.

Lemma rmatch_Seq (A : Type) (a b : regex) (prev : option char)
      (s : str) (g : option str) (k : kont A) :
  rmatch fl (Seq a b) prev s g k
  = rmatch fl a prev s g (fun p' s' g' => rmatch fl b p' s' g' k).
Proof. reflexivity. Qed.

Lemma star_loop_O (A : Type) (a : regex) (greedy : bool) (k : kont A)
      (prev : option char) (s : str) (g : option str) :
  star_loop a greedy k 0 prev s g = k prev s g.
Proof. reflexivity. Qed.

Lemma star_loop_S (A : Type) (a : regex) (greedy : bool) (k : kont A) (n : nat)
      (prev : option char) (s : str) (g : option str) :
  star_loop a greedy k (S n) prev s g =
  let more :=
    rmatch fl a prev s g
      (fun p' s' g' =>
         if length s' <? length s then star_loop a greedy k n p' s' g' else None) in
  if greedy then
    match more with
    | Some x => Some x
    | None => k prev s g
    end
  else
    match k prev s g with
    | Some x => Some x
    | None => more
    end.
Proof. reflexivity. Qed.

Definition kont_eq (A : Type) (k1 k2 : kont A) : Prop :=
  forall p' s' g', k1 p' s' g' = k2 p' s' g'.

Lemma star_loop_ext (A : Type) (a : regex) (greedy : bool) :
  (forall prev s g (k1 k2 : kont A),
      kont_eq k1 k2 -> rmatch fl a prev s g k1 = rmatch fl a prev s g k2) ->
  forall (k1 k2 : kont A), kont_eq k1 k2 ->
  forall n prev s g,
    star_loop a greedy k1 n prev s g = star_loop a greedy k2 n prev s g.
Proof.
  intros Ha k1 k2 H n. induction n as [|n IHn]; intros prev s g.
  - rewrite !star_loop_O. apply H.
  - rewrite !star_loop_S. cbv zeta. rewrite (H prev s g).
    erewrite Ha; [reflexivity|].
    intros p' s' g'. destruct (length s' <? length s); auto.
Qed.

(** The matcher only looks at what its continuation returns. *)
Lemma rmatch_ext (A : Type) (r : regex) :
  forall (prev : option char) (s : str) (g : option str) (k1 k2 : kont A),
    kont_eq k1 k2 ->
    rmatch fl r prev s g k1 = rmatch fl r prev s g k2.
Proof.
  induction r as [| c | p | | | | a IHa b IHb | a IHa | greedy a IHa | a IHa];
    intros prev s g k1 k2 H; simpl.
  - apply H.
  - destruct s as [|x s']; auto. destruct (eqc x c); auto.
  - destruct s as [|x s']; auto. destruct (p x); auto.
  - destruct s as [|x s']; auto. destruct (DOTALL fl || negb (eqc x NL)); auto.
  - destruct prev as [x|]; auto. destruct (MULTILINE fl && eqc x NL); auto.
  - destruct s as [|x s']; auto.
    destruct (eqc x NL && _); auto.
  - apply IHa. intros p' s' g'; apply IHb; auto.
  - rewrite (IHa prev s g k1 k2 H), H. reflexivity.
  - apply star_loop_ext; assumption.
  - apply IHa. intros p' s' g'; apply H.
Qed.

(** What [.] matches under the flags. *)
Definition dot_test (x : char) : bool := DOTALL fl || negb (eqc x NL).

(** The test of a pattern that reads exactly one character. *)
Definition char_test (a : regex) : option (char -> bool) :=
  match a with
  | Chr c => Some (is_ c)
  | Cls p => Some p
  | Dot => Some dot_test
  | _ => None
  end.

Lemma rmatch_char_test (A : Type) (a : regex) (p : char -> bool) :
  char_test a = Some p ->
  forall prev s g (k : kont A),
    rmatch fl a prev s g k =
    match s with
    | x :: s' => if p x then k (Some x) s' g else None
    | [] => None
    end.
Proof.
  destruct a; simpl; try discriminate; intros E; inversion E; subst; reflexivity.
Qed.

(** A greedy run of one-character tests: the longest run first, then
    shorter ones. *)
Fixpoint greedy_run (A : Type) (p : char -> bool) (k : kont A)
         (prev : option char) (s : str) (g : option str) : option A :=
  match s with
  | x :: s' =>
      if p x then
        match greedy_run p k (Some x) s' g with
        | Some r => Some r
        | None => k prev s g
        end
      else k prev s g
  | [] => k prev s g
  end.

(** A lazy run: the shortest run first. *)
Fixpoint lazy_run (A : Type) (p : char -> bool) (k : kont A)
         (prev : option char) (s : str) (g : option str) : option A :=
  match k prev s g with
  | Some r => Some r
  | None =>
      match s with
      | x :: s' => if p x then lazy_run p k (Some x) s' g else None
      | [] => None
      end
  end.

Lemma star_loop_greedy_run (A : Type) (a : regex) (p : char -> bool) (k : kont A) :
  char_test a = Some p ->
  forall n s prev g, length s <= n ->
    star_loop a true k n prev s g = greedy_run p k prev s g.
Proof.
  intros Ha n. induction n as [|n IHn]; intros s prev g Hn.
  - destruct s; [reflexivity | simpl in Hn; lia].
  - rewrite star_loop_S. cbv zeta. rewrite (rmatch_char_test _ Ha).
    destruct s as [|x s']; [reflexivity|].
    simpl in Hn. cbn [greedy_run]. destruct (p x); [|reflexivity].
    replace (length s' <? length (x :: s')) with true
      by (symmetry; apply Nat.ltb_lt; simpl; lia).
    rewrite IHn by lia. reflexivity.
Qed.

Lemma star_loop_lazy_run (A : Type) (a : regex) (p : char -> bool) (k : kont A) :
  char_test a = Some p ->
  forall n s prev g, length s <= n ->
    star_loop a false k n prev s g = lazy_run p k prev s g.
Proof.
  intros Ha n. induction n as [|n IHn]; intros s prev g Hn.
  - destruct s; [|simpl in Hn; lia]. rewrite star_loop_O. simpl.
    destruct (k prev [] g); reflexivity.
  - rewrite star_loop_S. cbv zeta. rewrite (rmatch_char_test _ Ha).
    destruct s as [|x s'].
    + simpl. destruct (k prev [] g); reflexivity.
    + simpl in Hn. cbn [lazy_run]. destruct (k prev (x :: s') g); [reflexivity|].
      destruct (p x); [|reflexivity].
      replace (length s' <? length (x :: s')) with true
        by (symmetry; apply Nat.ltb_lt; simpl; lia).
      apply IHn. lia.
Qed.

Lemma rmatch_star_greedy (A : Type) (a : regex) (p : char -> bool) :
  char_test a = Some p ->
  forall prev s g (k : kont A),
    rmatch fl (Star true a) prev s g k = greedy_run p k prev s g.
Proof. intros Ha prev s g k. rewrite rmatch_Star. apply star_loop_greedy_run; auto. Qed.

Lemma rmatch_star_lazy (A : Type) (a : regex) (p : char -> bool) :
  char_test a = Some p ->
  forall prev s g (k : kont A),
    rmatch fl (Star false a) prev s g k = lazy_run p k prev s g.
Proof. intros Ha prev s g k. rewrite rmatch_Star. apply star_loop_lazy_run; auto. Qed.

(** The longest run is the one taken when the continuation accepts it. *)
Lemma greedy_run_first (A : Type) (p : char -> bool) (k : kont A) (x : A) :
  forall s prev g,
    k (lastc prev (takeWhile p s)) (dropWhile p s) g = Some x ->
    greedy_run p k prev s g = Some x.
Proof.
  induction s as [|c s IH]; intros prev g H; simpl in *; auto.
  destruct (p c); simpl in *; auto. rewrite (IH _ _ H). reflexivity.
Qed.

Lemma greedy_run_some (A : Type) (p : char -> bool) (k : kont A) (x : A) :
  forall s prev g,
    greedy_run p k prev s g = Some x ->
    exists u v, s = u ++ v /\ forallb p u = true /\ k (lastc prev u) v g = Some x.
Proof.
  induction s as [|c s IH]; intros prev g H; simpl in H.
  - exists [], []; auto.
  - destruct (p c) eqn:E.
    + destruct (greedy_run p k (Some c) s g) eqn:R.
      * inversion H; subst. destruct (IH _ _ R) as (u & v & -> & Hu & Hk).
        exists (c :: u), v; simpl; rewrite E; auto.
      * exists [], (c :: s); auto.
    + exists [], (c :: s); auto.
Qed.

Lemma greedy_run_none (A : Type) (p : char -> bool) (k : kont A) :
  forall s prev g,
    (forall u v, s = u ++ v -> forallb p u = true -> k (lastc prev u) v g = None) ->
    greedy_run p k prev s g = None.
Proof.
  induction s as [|c s IH]; intros prev g H; simpl.
  - apply (H [] []); auto.
  - destruct (p c) eqn:E.
    + rewrite IH.
      * apply (H [] (c :: s)); auto.
      * intros u v -> Hu. apply (H (c :: u) v); simpl; auto. rewrite E; auto.
    + apply (H [] (c :: s)); auto.
Qed.

(** When the continuation refuses every text that goes on the run, only
    the longest run counts. *)
Lemma greedy_run_exact (A : Type) (p : char -> bool) (k : kont A) :
  (forall prev c v g, p c = true -> k prev (c :: v) g = None) ->
  forall s prev g,
    greedy_run p k prev s g = k (lastc prev (takeWhile p s)) (dropWhile p s) g.
Proof.
  intros Hk. induction s as [|c s IH]; intros prev g; cbn; auto.
  destruct (p c) eqn:E; cbn [lastc]; auto.
  rewrite IH, (Hk prev c s g E). destruct (k _ _ g); reflexivity.
Qed.

Lemma lazy_run_some (A : Type) (p : char -> bool) (k : kont A) (x : A) :
  forall s prev g,
    lazy_run p k prev s g = Some x ->
    exists u v, s = u ++ v /\ forallb p u = true /\ k (lastc prev u) v g = Some x.
Proof.
  induction s as [|c s IH]; intros prev g H; simpl in H.
  - destruct (k prev [] g) eqn:K; [inversion H; subst|discriminate].
    exists [], []; auto.
  - destruct (k prev (c :: s) g) eqn:K.
    + inversion H; subst. exists [], (c :: s); auto.
    + destruct (p c) eqn:E; [|discriminate].
      destruct (IH _ _ H) as (u & v & -> & Hu & Hk).
      exists (c :: u), v; simpl; rewrite E; auto.
Qed.

Lemma lazy_run_none (A : Type) (p : char -> bool) (k : kont A) :
  forall s prev g,
    (forall u v, s = u ++ v -> forallb p u = true -> k (lastc prev u) v g = None) ->
    lazy_run p k prev s g = None.
Proof.
  induction s as [|c s IH]; intros prev g H; simpl.
  - pose proof (H [] [] eq_refl eq_refl) as H0. simpl in H0. rewrite H0; auto.
  - pose proof (H [] (c :: s) eq_refl eq_refl) as H0. simpl in H0. rewrite H0.
    destruct (p c) eqn:E; auto.
    apply IH. intros u v -> Hu. apply (H (c :: u) v); simpl; auto. rewrite E; auto.
Qed.

(** A lazy run stops at the first position the continuation accepts. *)
Lemma lazy_run_first (A : Type) (p : char -> bool) (k : kont A) (x : A) :
  forall u v prev g,
    forallb p u = true ->
    (forall u1 u2, u = u1 ++ u2 -> u2 <> [] -> k (lastc prev u1) (u2 ++ v) g = None) ->
    k (lastc prev u) v g = Some x ->
    lazy_run p k prev (u ++ v) g = Some x.
Proof.
  induction u as [|c u IH]; intros v prev g Hu Hn Hk.
  - simpl in *. destruct v; simpl; rewrite Hk; reflexivity.
  - simpl in Hu. apply andb_true_iff in Hu as [Hc Hu].
    cbn [app lazy_run].
    pose proof (Hn [] (c :: u) eq_refl ltac:(discriminate)) as H0. simpl in H0.
    rewrite H0, Hc. apply IH; auto.
    intros u1 u2 -> H2. apply (Hn (c :: u1) u2); auto.
Qed.

Lemma rmatch_Lit (A : Type) (u : str) :
  forall prev s g (k : kont A),
    rmatch fl (Lit u) prev s g k =
    if startswith u s then k (lastc prev u) (skipn (length u) s) g else None.
Proof.
  induction u as [|c u IH]; intros prev s g k.
  - reflexivity.
  - cbn [Lit]. rewrite rmatch_Seq. cbn [rmatch startswith].
    destruct s as [|x s']; [reflexivity|].
    rewrite (eqc_sym c x). destruct (eqc x c) eqn:E; [|reflexivity].
    apply eqc_true in E; subst x. rewrite IH. reflexivity.
Qed.

(** One step of the matcher for each construct. *)
Lemma rmatch_Eps (A : Type) prev s g (k : kont A) :
  rmatch fl Eps prev s g k = k prev s g.
Proof. reflexivity. Qed.

Lemma rmatch_Chr (A : Type) (c : char) prev s g (k : kont A) :
  rmatch fl (Chr c) prev s g k =
  match s with
  | x :: s' => if eqc x c then k (Some x) s' g else None
  | [] => None
  end.
Proof. reflexivity. Qed.

Lemma rmatch_Cls (A : Type) (p : char -> bool) prev s g (k : kont A) :
  rmatch fl (Cls p) prev s g k =
  match s with
  | x :: s' => if p x then k (Some x) s' g else None
  | [] => None
  end.
Proof. reflexivity. Qed.

Lemma rmatch_Dot (A : Type) prev s g (k : kont A) :
  rmatch fl Dot prev s g k =
  match s with
  | x :: s' => if dot_test x then k (Some x) s' g else None
  | [] => None
  end.
Proof. reflexivity. Qed.

Lemma rmatch_Bol (A : Type) prev s g (k : kont A) :
  rmatch fl Bol prev s g k =
  match prev with
  | None => k prev s g
  | Some x => if MULTILINE fl && eqc x NL then k prev s g else None
  end.
Proof. reflexivity. Qed.

Lemma rmatch_Eol (A : Type) prev s g (k : kont A) :
  rmatch fl Eol prev s g k =
  match s with
  | [] => k prev s g
  | x :: s' =>
      if eqc x NL && (MULTILINE fl || match s' with [] => true | _ => false end)
      then k prev s g else None
  end.
Proof. reflexivity. Qed.

Lemma rmatch_Opt (A : Type) (a : regex) prev s g (k : kont A) :
  rmatch fl (Opt a) prev s g k =
  match rmatch fl a prev s g k with
  | Some x => Some x
  | None => k prev s g
  end.
Proof. reflexivity. Qed.

Lemma rmatch_Opt_hit (A : Type) (a : regex) prev s g (k : kont A) (x : A) :
  rmatch fl a prev s g k = Some x -> rmatch fl (Opt a) prev s g k = Some x.
Proof. intros H. rewrite rmatch_Opt, H. reflexivity. Qed.

Lemma rmatch_Opt_miss (A : Type) (a : regex) prev s g (k : kont A) :
  rmatch fl a prev s g k = None -> rmatch fl (Opt a) prev s g k = k prev s g.
Proof. intros H. rewrite rmatch_Opt, H. reflexivity. Qed.

Lemma rmatch_Grp (A : Type) (a : regex) prev s g (k : kont A) :
  rmatch fl (Grp a) prev s g k =
  rmatch fl a prev s g
    (fun p' s' _ => k p' s' (Some (firstn (length s - length s') s))).
Proof. reflexivity. Qed.

Lemma rmatch_star_Cls (A : Type) (p : char -> bool) prev s g (k : kont A) :
  rmatch fl (Star true (Cls p)) prev s g k = greedy_run p k prev s g.
Proof. apply rmatch_star_greedy; reflexivity. Qed.

Lemma rmatch_star_Chr (A : Type) (c : char) prev s g (k : kont A) :
  rmatch fl (Star true (Chr c)) prev s g k = greedy_run (is_ c) k prev s g.
Proof. apply rmatch_star_greedy; reflexivity. Qed.

Lemma rmatch_star_Dot (A : Type) prev s g (k : kont A) :
  rmatch fl (Star true Dot) prev s g k = greedy_run dot_test k prev s g.
Proof. apply rmatch_star_greedy; reflexivity. Qed.

Lemma rmatch_lazy_Dot (A : Type) prev s g (k : kont A) :
  rmatch fl (Star false Dot) prev s g k = lazy_run dot_test k prev s g.
Proof. apply rmatch_star_lazy; reflexivity. Qed.

(** [.*?] followed by a character: the lazy run stops at the first
    occurrence of the character. *)
Lemma lazy_dot_chr (A : Type) (c : char) (k : kont A) (x : A) :
  forall u v prev g,
    forallb (fun y => dot_test y && negb (eqc y c)) u = true ->
    k (Some c) v g = Some x ->
    lazy_run dot_test (fun p' s' g' => rmatch fl (Chr c) p' s' g' k) prev (u ++ c :: v) g
    = Some x.
Proof.
  induction u as [|y u IH]; intros v prev g Hu Hk.
  - cbn [app lazy_run]. rewrite rmatch_Chr, eqc_refl, Hk. reflexivity.
  - cbn [forallb] in Hu. apply andb_true_iff in Hu as [Hy Hu].
    apply andb_true_iff in Hy as [Hy1 Hy2]. apply negb_true_iff in Hy2.
    cbn [app lazy_run]. rewrite rmatch_Chr, Hy2, Hy1. apply IH; auto.
Qed.

(** The continuation is entered at a position of the subject, with the
    character before that position. *)
Lemma star_loop_reach (A : Type) (a : regex) (greedy : bool) (k : kont A) :
  (forall prev s g (k' : kont A) x,
      rmatch fl a prev s g k' = Some x ->
      exists u s' g', s = u ++ s' /\ k' (lastc prev u) s' g' = Some x) ->
  forall n prev s g x,
    star_loop a greedy k n prev s g = Some x ->
    exists u s' g', s = u ++ s' /\ k (lastc prev u) s' g' = Some x.
Proof.
  intros Ha n. induction n as [|n IHn]; intros prev s g x H.
  - rewrite star_loop_O in H. exists [], s, g; auto.
  - rewrite star_loop_S in H. cbv zeta in H.
    assert (Hmore : forall y,
               rmatch fl a prev s g
                 (fun p' s' g' =>
                    if length s' <? length s then star_loop a greedy k n p' s' g' else None)
               = Some y ->
               exists u s' g', s = u ++ s' /\ k (lastc prev u) s' g' = Some y).
    { intros y Hy. apply Ha in Hy as (u & s' & g' & -> & Hy).
      destruct (length s' <? length (u ++ s')); [|discriminate].
      apply IHn in Hy as (u2 & s2 & g2 & -> & Hy).
      exists (u ++ u2), s2, g2. rewrite lastc_app, app_assoc. auto. }
    destruct greedy.
    + destruct (rmatch fl a prev s g _) eqn:R.
      * inversion H; subst. apply Hmore; reflexivity.
      * exists [], s, g; auto.
    + destruct (k prev s g) eqn:K.
      * inversion H; subst. exists [], s, g; auto.
      * apply Hmore; assumption.
Qed.

Lemma rmatch_reach (A : Type) (r : regex) :
  forall prev s g (k : kont A) x,
    rmatch fl r prev s g k = Some x ->
    exists u s' g', s = u ++ s' /\ k (lastc prev u) s' g' = Some x.
Proof.
  induction r as [| c | p | | | | a IHa b IHb | a IHa | greedy a IHa | a IHa];
    intros prev s g k x H; simpl in H.
  - exists [], s, g; auto.
  - destruct s as [|y s']; [discriminate|]. destruct (eqc y c); [|discriminate].
    exists [y], s', g; auto.
  - destruct s as [|y s']; [discriminate|]. destruct (p y); [|discriminate].
    exists [y], s', g; auto.
  - destruct s as [|y s']; [discriminate|].
    destruct (DOTALL fl || negb (eqc y NL)); [|discriminate].
    exists [y], s', g; auto.
  - exists [], s, g. split; auto.
    destruct prev as [y|]; auto. destruct (MULTILINE fl && eqc y NL); [auto|discriminate].
  - exists [], s, g. split; auto.
    destruct s as [|y s']; auto. destruct (eqc y NL && _); [auto|discriminate].
  - apply IHa in H as (u & s' & g' & -> & H).
    apply IHb in H as (u2 & s2 & g2 & -> & H).
    exists (u ++ u2), s2, g2. rewrite lastc_app, app_assoc. auto.
  - destruct (rmatch fl a prev s g k) eqn:R.
    + inversion H; subst. apply IHa in R. exact R.
    + exists [], s, g; auto.
  - change (star_loop a greedy k (length s) prev s g = Some x) in H.
    eapply star_loop_reach; eassumption.
  - apply IHa in H as (u & s' & g' & -> & H). eauto.
Qed.

End MatcherFacts.

(** ** Facts about searching and substituting *)

Section SearchFacts.

Variable fl : flags.
Variable r : regex.

Lemma firstn_app_minus (u v : str) : firstn (length (u ++ v) - length v) (u ++ v) = u.
Proof.
  rewrite length_app, Nat.add_sub. rewrite firstn_app, Nat.sub_diag, firstn_all.
  simpl. apply app_nil_r.
Qed.

(** A match at a position splits the subject there. *)
Lemma match_at_spec (adv : bool) (prev : option char) (s : str) (m : mtch) :
  match_at fl r adv prev s = Some m ->
  m_pre m = [] /\ s = m_text m ++ m_post m /\ m_last m = lastc prev (m_text m)
  /\ (adv = true -> m_text m <> []).
Proof.
  unfold match_at. intros H. apply rmatch_reach in H as (u & s' & g' & -> & H).
  destruct (adv && (length s' =? length (u ++ s'))) eqn:E; [discriminate|].
  inversion H; subst; clear H. cbn [m_pre m_text m_post m_last].
  rewrite firstn_app_minus. repeat split; auto.
  intros -> ->. simpl in E. rewrite Nat.eqb_refl in E. discriminate.
Qed.

Lemma search_go_spec (s : str) :
  forall (adv : bool) (prev : option char) (m : mtch),
    search_go fl r adv prev s = Some m ->
    s = m_pre m ++ m_text m ++ m_post m
    /\ m_last m = lastc prev (m_pre m ++ m_text m)
    /\ (adv = true -> m_pre m = [] -> m_text m <> []).
Proof.
  induction s as [|x s IH]; intros adv prev m H; simpl in H.
  - destruct (match_at fl r adv prev []) eqn:E; [|discriminate].
    inversion H; subst. apply match_at_spec in E as (-> & E1 & E2 & E3). auto.
  - destruct (match_at fl r adv prev (x :: s)) eqn:E.
    + inversion H; subst. apply match_at_spec in E as (-> & E1 & E2 & E3). auto.
    + destruct (search_go fl r false (Some x) s) as [m'|] eqn:S; [|discriminate].
      simpl in H. inversion H; subst. apply IH in S as (S1 & S2 & S3).
      cbn [add_pre m_pre m_text m_post m_last].
      split; [simpl; congruence|]. split; [simpl; exact S2|].
      intros _ Hp. discriminate Hp.
Qed.

Lemma search_go_post_length (s : str) (adv : bool) (prev : option char) (m : mtch) :
  search_go fl r adv prev s = Some m ->
  length s = length (m_pre m) + length (m_text m) + length (m_post m).
Proof.
  intros H. apply search_go_spec in H as (H & _). rewrite H at 1.
  rewrite !length_app. lia.
Qed.

(** Enough rounds: the loop of [re.sub] gives the same result with any
    larger number of rounds. *)
Definition weight (adv : bool) (s : str) : nat :=
  2 * length s + (if adv then 0 else 1).

Lemma search_go_weight (adv : bool) (prev : option char) (s : str) (m : mtch) :
  search_go fl r adv prev s = Some m ->
  weight (is_nil (m_text m)) (m_post m) < weight adv s.
Proof.
  intros S. pose proof (search_go_post_length _ _ _ S) as HL.
  apply search_go_spec in S as (_ & _ & S3). unfold weight.
  destruct (m_text m) as [|y t] eqn:T; simpl in *.
  - destruct adv; [|lia].
    destruct (m_pre m) as [|z q] eqn:P; [exfalso; apply S3; auto|simpl in *; lia].
  - destruct adv; lia.
Qed.

Lemma sub_go_enough (repl : str) :
  forall n1 n2 cnt adv prev s,
    weight adv s < n1 -> weight adv s < n2 ->
    sub_go fl r n1 repl cnt adv prev s = sub_go fl r n2 repl cnt adv prev s.
Proof.
  induction n1 as [|n1 IH]; intros n2 cnt adv prev s H1 H2; [lia|].
  destruct n2 as [|n2]; [lia|]. cbn [sub_go].
  destruct (search_go fl r adv prev s) as [m|] eqn:S.
  - apply search_go_weight in S.
    destruct cnt as [[|c]|]; try reflexivity; f_equal; f_equal; apply IH; lia.
  - destruct cnt as [[|c]|]; reflexivity.
Qed.

Lemma findall_go_enough :
  forall n1 n2 adv prev s,
    weight adv s < n1 -> weight adv s < n2 ->
    findall_go fl r n1 adv prev s = findall_go fl r n2 adv prev s.
Proof.
  induction n1 as [|n1 IH]; intros n2 adv prev s H1 H2; [lia|].
  destruct n2 as [|n2]; [lia|]. cbn [findall_go].
  destruct (search_go fl r adv prev s) as [m|] eqn:S; [|reflexivity].
  apply search_go_weight in S. f_equal. apply IH; lia.
Qed.

Lemma weight_rounds (s : str) : weight false s < rounds s.
Proof. unfold weight, rounds. lia. Qed.

(** No match anywhere: the subject comes back unchanged. *)
Lemma sub_no_match (repl : str) (cnt : option nat) (s : str) :
  search fl r s = None -> sub fl r repl cnt s = s.
Proof.
  unfold sub, search, rounds. intros H.
  replace (2 * length s + 2) with (S (2 * length s + 1)) by lia.
  cbn [sub_go]. rewrite H. destruct cnt as [[|c]|]; reflexivity.
Qed.

(** One match that runs to the end of the subject, where nothing more
    matches: what is left is the text before the match. *)
Lemma sub_cut (cnt : option nat) (s : str) (m : mtch) :
  search fl r s = Some m ->
  m_post m = [] ->
  (forall adv prev, match_at fl r adv prev [] = None) ->
  cnt <> Some 0 ->
  sub fl r [] cnt s = m_pre m.
Proof.
  unfold sub, search, rounds. intros H Hp Hnil Hc.
  replace (2 * length s + 2) with (S (S (2 * length s))) by lia.
  cbn [sub_go]. rewrite H, Hp. cbn [search_go]. rewrite Hnil.
  destruct cnt as [[|[|c]]|]; try congruence; simpl; rewrite app_nil_r; reflexivity.
Qed.

Lemma search_go_hit (adv : bool) (prev : option char) (s : str) (m : mtch) :
  match_at fl r adv prev s = Some m -> search_go fl r adv prev s = Some m.
Proof. intros H. destruct s; cbn [search_go]; rewrite H; reflexivity. Qed.

(** The match found behind a stretch of text in which nothing matches. *)
Definition prepend (l : str) (m : mtch) : mtch :=
  Mtch (l ++ m_pre m) (m_text m) (m_grp m) (m_last m) (m_post m).

Lemma search_go_skip (l rest : str) :
  (forall u x v, l = u ++ x :: v ->
                 forall adv p, match_at fl r adv p (x :: v ++ rest) = None) ->
  forall prev,
    search_go fl r false prev (l ++ rest)
    = option_map (prepend l) (search_go fl r false (lastc prev l) rest).
Proof.
  induction l as [|x l IH]; intros H prev.
  - cbn [app lastc]. destruct (search_go fl r false prev rest) as [[a b c d e]|];
      reflexivity.
  - cbn [app search_go lastc]. rewrite (H [] x l eq_refl).
    rewrite IH by (intros u y v E; apply (H (x :: u) y v); rewrite E; reflexivity).
    destruct (search_go fl r false (lastc (Some x) l) rest) as [m|]; reflexivity.
Qed.

(** With an empty replacement nothing comes of an empty subject. *)
Lemma sub_go_nil (n : nat) (cnt : option nat) (adv : bool) (prev : option char) :
  sub_go fl r n [] cnt adv prev [] = [].
Proof.
  revert cnt adv prev. induction n as [|n IH]; intros cnt adv prev; [reflexivity|].
  cbn [sub_go]. destruct (search_go fl r adv prev []) as [m|] eqn:S.
  - pose proof (search_go_post_length _ _ _ S) as HL. cbn [length] in HL.
    destruct (m_pre m), (m_text m), (m_post m); cbn [length] in HL; try lia.
    destruct cnt as [[|c]|]; try reflexivity; cbn [app]; apply IH.
  - destruct cnt as [[|c]|]; reflexivity.
Qed.

(** The loop of [re.sub] passes over a stretch in which nothing matches. *)
Lemma sub_go_skip (repl l rest : str) :
  (forall u x v, l = u ++ x :: v ->
                 forall adv p, match_at fl r adv p (x :: v ++ rest) = None) ->
  forall n cnt prev,
    sub_go fl r n repl cnt false prev (l ++ rest)
    = l ++ sub_go fl r n repl cnt false (lastc prev l) rest.
Proof.
  intros H n cnt prev. destruct n as [|n]; [reflexivity|].
  cbn [sub_go]. rewrite search_go_skip by exact H.
  destruct (search_go fl r false (lastc prev l) rest) as [m|];
    destruct cnt as [[|c]|]; cbn [option_map prepend m_pre m_text m_last m_post];
    rewrite <- ?app_assoc; reflexivity.
Qed.

End SearchFacts.

(** ** Patterns that run to the end *)

Section ToEnd.

Variable fl : flags.
Variable h : regex.
Hypothesis dot_all : DOTALL fl = true.

(** A pattern that ends in [.*$] under [re.DOTALL]. *)
Definition to_end : regex := Seq h (Seq (Star true Dot) Eol).

Lemma dot_test_all (x : char) : dot_test fl x = true.
Proof. unfold dot_test. rewrite dot_all. reflexivity. Qed.

(** [.*$] takes the rest of the subject. *)
Lemma rmatch_rest (A : Type) (k : kont A) (x : A) prev s g :
  k (lastc prev s) [] g = Some x ->
  rmatch fl (Seq (Star true Dot) Eol) prev s g k = Some x.
Proof.
  intros H. rewrite rmatch_Seq, rmatch_star_Dot. apply greedy_run_first.
  destruct (@takeWhile_true (dot_test fl) s dot_test_all) as [-> ->].
  rewrite rmatch_Eol. exact H.
Qed.

(** A first attempt of such a pattern matches through to the end. *)
Lemma match_at_to_end (prev : option char) (s : str) :
  match_at fl to_end false prev s =
  rmatch fl h prev s None
    (fun p' s' g' => Some (Mtch [] s g' (lastc p' s') [])).
Proof.
  unfold match_at, to_end. rewrite rmatch_Seq. apply rmatch_ext.
  intros p' s' g'. apply rmatch_rest. cbn [andb length].
  rewrite Nat.sub_0_r, firstn_all. reflexivity.
Qed.

Lemma match_at_to_end_post (prev : option char) (s : str) (m : mtch) :
  match_at fl to_end false prev s = Some m -> m_post m = [].
Proof.
  rewrite match_at_to_end. intros H.
  apply rmatch_reach in H as (u & s' & g' & _ & H). inversion H. reflexivity.
Qed.

Lemma search_to_end_post (s : str) :
  forall prev m, search_go fl to_end false prev s = Some m -> m_post m = [].
Proof.
  induction s as [|x s IH]; intros prev m H; cbn [search_go] in H.
  - destruct (match_at fl to_end false prev []) eqn:E; [|discriminate].
    inversion H; subst. eapply match_at_to_end_post; eassumption.
  - destruct (match_at fl to_end false prev (x :: s)) eqn:E.
    + inversion H; subst. eapply match_at_to_end_post; eassumption.
    + destruct (search_go fl to_end false (Some x) s) as [m'|] eqn:S; [|discriminate].
      cbn in H. inversion H; subst. cbn [add_pre m_post]. eapply IH; eassumption.
Qed.

(** What [re.sub] leaves of the subject is what comes before the leftmost
    match, or all of it. *)
Lemma sub_to_end (s : str) :
  sub fl to_end [] None s =
  match search fl to_end s with
  | Some m => m_pre m
  | None => s
  end.
Proof.
  unfold sub, search, rounds.
  replace (2 * length s + 2) with (S (2 * length s + 1)) by lia.
  cbn [sub_go]. destruct (search_go fl to_end false None s) as [m|] eqn:S; [|reflexivity].
  rewrite (search_to_end_post _ _ S). cbn [option_map app].
  rewrite sub_go_nil. apply app_nil_r.
Qed.

Lemma sub_to_end_prefix (s : str) : exists w, s = sub fl to_end [] None s ++ w.
Proof.
  rewrite sub_to_end. unfold search.
  destruct (search_go fl to_end false None s) as [m|] eqn:S.
  - apply search_go_spec in S as (S & _). eexists. exact S.
  - exists []. symmetry. apply app_nil_r.
Qed.

End ToEnd.

(** ** Patterns anchored at the start *)

Section Anchored.

Variable fl : flags.
Variable r : regex.
Hypothesis not_multiline : MULTILINE fl = false.

(** Without [re.MULTILINE], [^] only holds at the start of the subject. *)
Lemma match_at_bol_later (adv : bool) (x : char) (s : str) :
  match_at fl (Seq Bol r) adv (Some x) s = None.
Proof.
  unfold match_at. rewrite rmatch_Seq, rmatch_Bol, not_multiline. reflexivity.
Qed.

Lemma search_go_bol_later (s : str) :
  forall x, search_go fl (Seq Bol r) false (Some x) s = None.
Proof.
  induction s as [|y s IH]; intros x; cbn [search_go];
    rewrite match_at_bol_later; [reflexivity|]. rewrite IH. reflexivity.
Qed.

Lemma search_bol (s : str) :
  search fl (Seq Bol r) s = match_at fl (Seq Bol r) false None s.
Proof.
  unfold search. destruct s as [|x s]; cbn [search_go];
    destruct (match_at fl (Seq Bol r) false None _); auto.
  rewrite search_go_bol_later. reflexivity.
Qed.

(** An anchored pattern that matches at the start is replaced there, once. *)
Lemma sub_bol_hit (cnt : option nat) (s : str) (m : mtch) :
  match_at fl (Seq Bol r) false None s = Some m ->
  m_text m <> [] ->
  cnt <> Some 0 ->
  sub fl (Seq Bol r) [] cnt s = m_post m.
Proof.
  intros H Ht Hc. unfold sub, rounds.
  replace (2 * length s + 2) with (S (S (2 * length s))) by lia.
  pose proof (search_bol s) as Hs. unfold search in Hs. rewrite H in Hs.
  cbn [sub_go]. rewrite Hs.
  apply match_at_spec in H as (Hp & _ & Hl & _). rewrite Hp, Hl.
  destruct (m_text m) as [|c t] eqn:T; [congruence|].
  destruct (lastc_cons_some None c t) as [d ->].
  rewrite search_go_bol_later.
  destruct cnt as [[|[|n]]|]; try congruence; reflexivity.
Qed.

Lemma sub_bol_post (cnt : option nat) (s b : str) (m : mtch) :
  match_at fl (Seq Bol r) false None s = Some m ->
  m_post m = b ->
  length b < length s ->
  cnt <> Some 0 ->
  sub fl (Seq Bol r) [] cnt s = b.
Proof.
  intros H Hb Hl Hc. rewrite (@sub_bol_hit cnt s m); auto.
  apply match_at_spec in H as (_ & Hs & _). intros Ht.
  rewrite Ht, Hb in Hs. simpl in Hs. subst s. lia.
Qed.

Lemma sub_bol_miss (repl : str) (cnt : option nat) (s : str) :
  match_at fl (Seq Bol r) false None s = None ->
  sub fl (Seq Bol r) repl cnt s = s.
Proof. intros H. apply sub_no_match. rewrite search_bol. exact H. Qed.

End Anchored.

(** ** Tag extraction *)

(** Following the spec's words: every maximal run of non-space, non-[#]
    characters that comes right after a [#], in the order of the text. *)
Fixpoint tag_runs (s : str) : list str :=
  match s with
  | [] => []
  | c :: s' =>
      if eqc c HASH then
        match takeWhile Xiaohongshu.tagchar s' with
        | [] => tag_runs s'
        | run => run :: tag_runs s'
        end
      else tag_runs s'
  end.

Section Tags.

Import Xiaohongshu.

Lemma tagchar_not_hash (c : char) : tagchar c = true -> eqc c HASH = false.
Proof.
  unfold tagchar. intros H. apply andb_true_iff in H as [_ H].
  apply negb_true_iff in H. exact H.
Qed.

(** Nothing starts inside a run. *)
Lemma tag_runs_skip (u v : str) :
  forallb tagchar u = true -> tag_runs (u ++ v) = tag_runs v.
Proof.
  induction u as [|c u IH]; simpl; auto. intros H.
  apply andb_true_iff in H as [Hc Hu]. rewrite (tagchar_not_hash _ Hc). auto.
Qed.

Lemma firstn_minus_drop (p : char -> bool) (pre s : str) :
  firstn (length (pre ++ s) - length (dropWhile p s)) (pre ++ s)
  = pre ++ takeWhile p s.
Proof.
  assert (E : pre ++ s = (pre ++ takeWhile p s) ++ dropWhile p s)
    by (rewrite <- app_assoc, dropWhile_takeWhile; reflexivity).
  rewrite E at 1 2. apply firstn_app_minus.
Qed.

Lemma length_dropWhile (p : char -> bool) (s : str) :
  length (dropWhile p s) <= length s.
Proof. induction s as [|c s IH]; simpl; auto. destruct (p c); simpl; lia. Qed.

(** One attempt of [#([^\s#]+)]: a [#] and the longest run after it. *)
Lemma match_at_tag (adv : bool) (prev : option char) (s : str) :
  match_at no_flags re_tag adv prev s =
  match s with
  | x :: s' =>
      if eqc x HASH then
        match takeWhile tagchar s' with
        | [] => None
        | run =>
            Some (Mtch [] (x :: run) (Some run) (lastc (Some x) run)
                       (dropWhile tagchar s'))
        end
      else None
  | [] => None
  end.
Proof.
  unfold match_at, re_tag, Cat, Plus. rewrite rmatch_Seq, rmatch_Chr.
  destruct s as [|x s']; [reflexivity|].
  destruct (eqc x HASH); [|reflexivity].
  rewrite rmatch_Grp, rmatch_Seq, rmatch_Cls.
  destruct s' as [|y s2]; [reflexivity|].
  cbn [takeWhile dropWhile]. destruct (tagchar y) eqn:Hy; [|reflexivity].
  rewrite rmatch_star_Cls.
  apply greedy_run_first.
  pose proof (length_dropWhile tagchar s2) as HL.
  replace (length (dropWhile tagchar s2) =? length (x :: y :: s2)) with false
    by (symmetry; apply Nat.eqb_neq; simpl; lia).
  rewrite andb_false_r.
  change (x :: y :: s2) with ([x; y] ++ s2).
  change (y :: s2) with ([y] ++ s2).
  rewrite !firstn_minus_drop. reflexivity.
Qed.

(** The leftmost match is the first [#] that starts a run. *)
Lemma search_tag (s : str) :
  forall prev,
    match search_go no_flags re_tag false prev s with
    | None => tag_runs s = []
    | Some m =>
        m_text m <> []
        /\ exists run, m_grp m = Some run
                       /\ tag_runs s = run :: tag_runs (m_post m)
                       /\ length (m_post m) < length s
    end.
Proof.
  induction s as [|x s IH]; intros prev; cbn [search_go]; rewrite match_at_tag.
  - reflexivity.
  - cbn [tag_runs]. pose proof (length_dropWhile tagchar s) as HL.
    assert (Hrest :
      match option_map (add_pre x) (search_go no_flags re_tag false (Some x) s) with
      | None => tag_runs s = []
      | Some m =>
          m_text m <> []
          /\ exists run, m_grp m = Some run
                         /\ tag_runs s = run :: tag_runs (m_post m)
                         /\ length (m_post m) < length (x :: s)
      end).
    { specialize (IH (Some x)).
      destruct (search_go no_flags re_tag false (Some x) s) as [m|]; simpl; auto.
      destruct IH as (H1 & run & H2 & H3 & H4). split; auto.
      exists run; repeat split; auto. }
    destruct (eqc x HASH); [|exact Hrest].
    destruct (takeWhile tagchar s) as [|y run] eqn:T; [exact Hrest|].
    cbn [m_text m_grp m_post]. split; [discriminate|].
    exists (y :: run). repeat split; [|simpl; lia].
    f_equal. rewrite <- (dropWhile_takeWhile tagchar s) at 1.
    apply tag_runs_skip. apply takeWhile_all.
Qed.

Lemma findall_go_tag :
  forall n s prev,
    length s < n -> findall_go no_flags re_tag n false prev s = tag_runs s.
Proof.
  induction n as [|n IH]; intros s prev Hn; [lia|].
  cbn [findall_go]. pose proof (search_tag s prev) as H.
  destruct (search_go no_flags re_tag false prev s) as [m|]; [|auto].
  destruct H as (H1 & run & H2 & H3 & H4). rewrite H2, H3. f_equal.
  destruct (m_text m); [congruence|]. apply IH. lia.
Qed.

Lemma extract_tags_runs (text : str) : _extract_tags text = tag_runs text.
Proof.
  unfold _extract_tags, findall. rewrite findall_go_tag by (unfold rounds; lia).
  destruct (tag_runs text); reflexivity.
Qed.

End Tags.

(** ** Splitting and joining *)

Lemma join_cons (sep x : str) (l : list str) :
  join sep (x :: l) = x ++ match l with [] => [] | _ => sep ++ join sep l end.
Proof. destruct l; simpl; [rewrite app_nil_r|]; reflexivity. Qed.

Lemma join_app (sep : str) (l1 l2 : list str) :
  l1 <> [] -> l2 <> [] ->
  join sep (l1 ++ l2) = join sep l1 ++ sep ++ join sep l2.
Proof.
  induction l1 as [|x l1 IH]; intros H1 H2; [congruence|].
  destruct l1 as [|y l1].
  - destruct l2; [congruence|]. reflexivity.
  - change ((x :: y :: l1) ++ l2) with (x :: (y :: l1) ++ l2).
    rewrite (join_cons sep x ((y :: l1) ++ l2)), (join_cons sep x (y :: l1)).
    cbn [app]. rewrite <- app_comm_cons in IH. rewrite IH by (auto; discriminate).
    rewrite <- !app_assoc. reflexivity.
Qed.

Lemma split_go_not_nil (sep : str) (s : str) :
  forall skip, split_go sep skip s <> [].
Proof.
  induction s as [|x s IH]; intros skip; simpl; [discriminate|].
  destruct skip; auto.
  destruct (startswith sep (x :: s)); [discriminate|].
  destruct (split_go sep 0 s); discriminate.
Qed.

(** The blocks between blank lines, put together again, are the text. *)
Lemma join_split_blank (s : str) :
  join [NL; NL] (split_go [NL; NL] 0 s) = s.
Proof.
  remember (length s) as n eqn:Hn. revert s Hn.
  induction n as [n IH] using lt_wf_ind. intros s Hn.
  destruct s as [|x s']; [reflexivity|].
  cbn [split_go]. destruct (startswith [NL; NL] (x :: s')) eqn:E.
  - apply startswith_true in E as [t E]. simpl in E. inversion E; subst x s'.
    cbn [length split_go]. rewrite join_cons.
    pose proof (@split_go_not_nil [NL; NL] t 0) as Hne.
    destruct (split_go [NL; NL] 0 t) as [|h l] eqn:S; [congruence|].
    rewrite <- S, (IH (length t)); simpl in *; auto; lia.
  - pose proof (@split_go_not_nil [NL; NL] s' 0) as Hne.
    pose proof (IH (length s') ltac:(simpl in Hn; lia) s' eq_refl) as IHs.
    destruct (split_go [NL; NL] 0 s') as [|h l]; [congruence|].
    rewrite (join_cons _ (x :: h) l). rewrite (join_cons _ h l) in IHs.
    rewrite <- app_comm_cons. f_equal. exact IHs.
Qed.

(** ** Headline extraction *)

Section Headlines.

Import Xiaohongshu.

(** The loop appends the cleaned lines that pass the test, in order. *)
Lemma title_loop_filter (lines : list str) :
  title_loop lines = filter accepted (map clean_line lines).
Proof.
  unfold title_loop.
  enough (H : forall acc,
             fold_left
               (fun titles line =>
                  let line := clean_line line in
                  if accepted line then titles ++ [line] else titles) lines acc
             = acc ++ filter accepted (map clean_line lines))
    by (rewrite H; reflexivity).
  induction lines as [|l lines IH]; intros acc; simpl.
  - rewrite app_nil_r; reflexivity.
  - rewrite IH. destruct (accepted (clean_line l)); [|reflexivity].
    rewrite <- app_assoc. reflexivity.
Qed.

Lemma accepted_length (line : str) :
  accepted line = true <-> 6 <= length line <= 49.
Proof.
  unfold accepted. rewrite !andb_true_iff, !Nat.ltb_lt, negb_true_iff.
  destruct line; simpl; split; intros H; try lia; repeat split; try lia; auto.
Qed.

Lemma section_loop_filter (lines : list str) :
  section_loop lines =
  filter (fun line => negb (is_nil line) && negb (startswith [HASH] line))
         (map (fun line => sub no_flags re_title_tag [] None
                             (sub no_flags re_ordinal [] None (strip line))) lines).
Proof.
  unfold section_loop.
  enough (H : forall acc,
             fold_left
               (fun titles line =>
                  let line := strip line in
                  let line := sub no_flags re_ordinal [] None line in
                  let line := sub no_flags re_title_tag [] None line in
                  if negb (is_nil line) && negb (startswith [HASH] line)
                  then titles ++ [line] else titles) lines acc
             = acc ++ filter (fun line => negb (is_nil line) && negb (startswith [HASH] line))
                       (map (fun line => sub no_flags re_title_tag [] None
                                           (sub no_flags re_ordinal [] None (strip line)))
                            lines))
    by (rewrite H; reflexivity).
  induction lines as [|l lines IH]; intros acc; simpl.
  - rewrite app_nil_r; reflexivity.
  - rewrite IH. destruct (negb _ && negb _); [|reflexivity].
    rewrite <- app_assoc. reflexivity.
Qed.

(** *** Marked lines *)

(** The leading markers the loop strips: an ordinal ([1.], [2)], [3、]),
    a bracketed title tag ([[标题4]]) or a bullet, each with the blanks that
    follow it. *)
Inductive marker : Type :=
| Ordinal (digits : str) (p : char) (ws : str)
| TitleTag (digits : str) (ws : str)
| Bullet (c : char) (ws : str).

Definition render (m : marker) : str :=
  match m with
  | Ordinal ds p ws => ds ++ [p] ++ ws
  | TitleTag ds ws => [LBRK] ++ txt "标题" ++ ds ++ [RBRK] ++ ws
  | Bullet c ws => [c] ++ ws
  end.

(** Blanks inside a line. *)
Definition blank (c : char) : bool := isspace c && negb (eqc c NL).

Definition marker_ok (m : marker) : bool :=
  match m with
  | Ordinal ds p ws =>
      negb (is_nil ds) && forallb isdecimal ds && one_of (txt ".、)]") p
      && forallb blank ws
  | TitleTag ds ws => forallb isdecimal ds && forallb blank ws
  | Bullet c ws => one_of [DASH; STAR] c && forallb blank ws
  end.

(** A headline text: one line, with no white space around it, that does
    not itself start like a title tag or a bullet. *)
Definition plain (b : str) : bool :=
  negb (existsb (eqc NL) b)
  && match b with
     | c :: _ => negb (isspace c) && negb (one_of (LBRK :: DASH :: STAR :: txt "标") c)
     | [] => false
     end
  && match rev b with
     | c :: _ => negb (isspace c)
     | [] => false
     end.

Lemma blank_isspace (ws : str) : forallb blank ws = true -> forallb isspace ws = true.
Proof.
  induction ws as [|c ws IH]; simpl; auto. unfold blank at 1.
  rewrite !andb_true_iff. intros [[H _] H2]; auto.
Qed.

Lemma blank_no_newline (ws : str) :
  forallb blank ws = true -> existsb (eqc NL) ws = false.
Proof.
  induction ws as [|c ws IH]; simpl; auto. unfold blank at 1.
  rewrite !andb_true_iff, negb_true_iff. intros [[_ H] H2].
  rewrite eqc_sym, H. auto.
Qed.

Lemma plain_facts (b : str) :
  plain b = true ->
  existsb (eqc NL) b = false
  /\ (exists c b', b = c :: b' /\ isspace c = false
                   /\ one_of (LBRK :: DASH :: STAR :: txt "标") c = false)
  /\ stops isspace (rev b).
Proof.
  unfold plain. rewrite !andb_true_iff, negb_true_iff. intros [[H1 H2] H3].
  split; [exact H1|]. split.
  - destruct b as [|c b']; [discriminate|].
    apply andb_true_iff in H2 as [H2 H4]. apply negb_true_iff in H2, H4. eauto.
  - destruct (rev b); [discriminate|]. apply negb_true_iff in H3. exact H3.
Qed.

Lemma punct_not_decimal (p : char) :
  one_of (txt ".、)]") p = true -> isdecimal p = false.
Proof.
  unfold one_of. change (txt ".、)]") with [46; 12289; 41; 93]%N. simpl.
  rewrite !orb_true_iff, !eqc_true.
  intros [->|[->|[->|[->|H]]]]; try discriminate; vm_compute; reflexivity.
Qed.

(** [^\d+[.、)\]]\s*] takes an ordinal marker off. *)
Lemma sub_ordinal_hit (ds : str) (p : char) (ws b : str) :
  ds <> [] -> forallb isdecimal ds = true -> one_of (txt ".、)]") p = true ->
  forallb isspace ws = true -> stops isspace b ->
  sub no_flags re_ordinal [] None (ds ++ [p] ++ ws ++ b) = b.
Proof.
  intros Hne Hds Hp Hws Hb. destruct ds as [|d ds]; [congruence|].
  simpl in Hds. apply andb_true_iff in Hds as [Hd Hds].
  pose proof (punct_not_decimal _ Hp) as Hp'.
  unfold re_ordinal. cbn [Cat].
  eapply sub_bol_post; [reflexivity| | |len_solve|discriminate].
  - unfold match_at, Plus. rewrite rmatch_Seq, rmatch_Bol, !rmatch_Seq, rmatch_Cls.
    cbn [app]. rewrite Hd, rmatch_star_Cls. apply greedy_run_first.
    rewrite takeWhile_stops, dropWhile_stops by (auto; exact Hp').
    rewrite rmatch_Seq, rmatch_Cls, Hp, rmatch_star_Cls. apply greedy_run_first.
    rewrite takeWhile_stops, dropWhile_stops by auto.
    cbn [andb]. reflexivity.
  - reflexivity.
Qed.

Lemma sub_ordinal_miss (s : str) :
  stops isdecimal s -> sub no_flags re_ordinal [] None s = s.
Proof.
  intros H. unfold re_ordinal. cbn [Cat]. apply sub_bol_miss; [reflexivity|].
  unfold match_at, Plus. rewrite rmatch_Seq, rmatch_Bol, !rmatch_Seq, rmatch_Cls.
  destruct s as [|c s]; [reflexivity|]. cbn in H. rewrite H. reflexivity.
Qed.

(** [^\[?标题\d*\]?\s*] takes a title tag off. *)
Lemma sub_title_mark_hit (ds ws b : str) :
  forallb isdecimal ds = true -> forallb isspace ws = true -> stops isspace b ->
  sub no_flags re_title_mark [] None ([LBRK] ++ txt "标题" ++ ds ++ [RBRK] ++ ws ++ b) = b.
Proof.
  intros Hds Hws Hb. unfold re_title_mark. cbn [Cat].
  eapply sub_bol_post; [reflexivity| | |len_solve|discriminate].
  - unfold match_at. rewrite rmatch_Seq, rmatch_Bol, rmatch_Seq.
    apply rmatch_Opt_hit. rewrite rmatch_Chr. cbn [app]. rewrite eqc_refl.
    rewrite rmatch_Seq, rmatch_Lit, startswith_app, skipn_app_exact.
    rewrite rmatch_Seq, rmatch_star_Cls. apply greedy_run_first.
    rewrite takeWhile_stops, dropWhile_stops by (auto; vm_compute; reflexivity).
    rewrite rmatch_Seq. apply rmatch_Opt_hit. rewrite rmatch_Chr. cbn [app].
    rewrite eqc_refl, rmatch_star_Cls. apply greedy_run_first.
    rewrite takeWhile_stops, dropWhile_stops by auto.
    cbn [andb]. reflexivity.
  - reflexivity.
Qed.

Lemma sub_title_mark_miss (c : char) (s : str) :
  one_of (LBRK :: DASH :: STAR :: txt "标") c = false \/ one_of [DASH; STAR] c = true ->
  sub no_flags re_title_mark [] None (c :: s) = c :: s.
Proof.
  intros H.
  assert (H1 : eqc c LBRK = false /\ eqc 26631%N c = false).
  { unfold one_of in H. change (txt "标") with [26631%N] in H. simpl in H.
    destruct H as [H|H].
    - rewrite !orb_false_iff in H. rewrite (eqc_sym 26631%N c). tauto.
    - rewrite !orb_true_iff, !eqc_true in H.
      destruct H as [->|[->|H]]; [split; reflexivity|split; reflexivity|discriminate]. }
  destruct H1 as [H1 H2].
  unfold re_title_mark. cbn [Cat]. apply sub_bol_miss; [reflexivity|].
  unfold match_at. rewrite rmatch_Seq, rmatch_Bol, rmatch_Seq.
  rewrite rmatch_Opt_miss by (rewrite rmatch_Chr, H1; reflexivity).
  rewrite rmatch_Seq, rmatch_Lit. change (txt "标题") with [26631; 39064]%N.
  cbn [startswith]. rewrite H2. reflexivity.
Qed.

(** [^[-*]\s*] takes a bullet off. *)
Lemma sub_bullet_hit (c : char) (ws b : str) :
  one_of [DASH; STAR] c = true -> forallb isspace ws = true -> stops isspace b ->
  sub no_flags re_bullet [] None ([c] ++ ws ++ b) = b.
Proof.
  intros Hc Hws Hb. unfold re_bullet. cbn [Cat].
  eapply sub_bol_post; [reflexivity| | |len_solve|discriminate].
  - unfold match_at. rewrite rmatch_Seq, rmatch_Bol, rmatch_Seq, rmatch_Cls.
    cbn [app]. rewrite Hc, rmatch_star_Cls. apply greedy_run_first.
    rewrite takeWhile_stops, dropWhile_stops by auto.
    cbn [andb]. reflexivity.
  - reflexivity.
Qed.

Lemma sub_bullet_miss (c : char) (s : str) :
  one_of [DASH; STAR] c = false ->
  sub no_flags re_bullet [] None (c :: s) = c :: s.
Proof.
  intros H. unfold re_bullet. cbn [Cat]. apply sub_bol_miss; [reflexivity|].
  unfold match_at. rewrite rmatch_Seq, rmatch_Bol, rmatch_Seq, rmatch_Cls, H.
  reflexivity.
Qed.

Lemma one_of_bullet (c : char) :
  one_of [DASH; STAR] c = true -> c = DASH \/ c = STAR.
Proof.
  unfold one_of. simpl. rewrite !orb_true_iff, !eqc_true.
  intros [H|[H|H]]; auto. discriminate.
Qed.

Lemma not_marker_start (c : char) :
  one_of (LBRK :: DASH :: STAR :: txt "标") c = false ->
  one_of [DASH; STAR] c = false.
Proof.
  unfold one_of. change (txt "标") with [26631%N]. simpl.
  rewrite !orb_false_iff. tauto.
Qed.

Lemma render_starts (m : marker) :
  marker_ok m = true ->
  exists c t, render m = c :: t /\ isspace c = false.
Proof.
  destruct m as [ds p ws | ds ws | c ws]; simpl; intros H.
  - rewrite !andb_true_iff in H. destruct H as [[[H1 H2] _] _].
    destruct ds as [|d ds]; [discriminate|]. simpl in H2.
    apply andb_true_iff in H2 as [H2 _]. exists d, (ds ++ p :: ws).
    split; [reflexivity|]. apply isdecimal_not_space; auto.
  - eexists; eexists; split; [reflexivity|]. vm_compute; reflexivity.
  - apply andb_true_iff in H as [H _]. exists c, ws. split; [reflexivity|].
    apply one_of_bullet in H as [->| ->]; vm_compute; reflexivity.
Qed.

Lemma render_no_newline (m : marker) :
  marker_ok m = true -> existsb (eqc NL) (render m) = false.
Proof.
  assert (Hd : forall ds, forallb isdecimal ds = true -> existsb (eqc NL) ds = false).
  { induction ds as [|d ds IH]; simpl; auto. rewrite andb_true_iff. intros [H1 H2].
    rewrite IH by auto. rewrite orb_false_r.
    destruct (eqc NL d) eqn:E; auto. apply eqc_true in E; subst d.
    vm_compute in H1. discriminate. }
  destruct m as [ds p ws | ds ws | c ws]; simpl; intros H;
    rewrite !andb_true_iff in H.
  - destruct H as [[[_ H2] H3] H4]. rewrite !existsb_app. simpl.
    rewrite (Hd _ H2), (blank_no_newline _ H4), orb_false_r. simpl.
    unfold one_of in H3. change (txt ".、)]") with [46; 12289; 41; 93]%N in H3.
    simpl in H3. rewrite !orb_true_iff, !eqc_true in H3.
    destruct H3 as [->|[->|[->|[->|H3]]]]; try discriminate; reflexivity.
  - destruct H as [H2 H4]. change (txt "标题") with [26631; 39064]%N. simpl.
    rewrite !existsb_app. simpl.
    rewrite (Hd _ H2), (blank_no_newline _ H4). reflexivity.
  - destruct H as [H3 H4]. rewrite (blank_no_newline _ H4), orb_false_r.
    apply one_of_bullet in H3 as [->| ->]; reflexivity.
Qed.

(** The loop body gives back the text behind a marker. *)
Lemma clean_line_marked (m : marker) (b : str) :
  marker_ok m = true -> plain b = true -> clean_line (render m ++ b) = b.
Proof.
  intros Hm Hb. apply plain_facts in Hb as (_ & (c & b' & -> & Hc & Hc2) & Hrev).
  assert (Hsb : stops isspace (c :: b')) by exact Hc.
  unfold clean_line. rewrite strip_id.
  - destruct m as [ds p ws | ds ws | c0 ws]; simpl in Hm; cbn [render];
      rewrite !andb_true_iff in Hm; rewrite <- !app_assoc.
    + destruct Hm as [[[H1 H2] H3] H4].
      rewrite sub_ordinal_hit; auto using blank_isspace.
      * rewrite sub_title_mark_miss by auto.
        apply sub_bullet_miss. apply not_marker_start; auto.
      * destruct ds; [discriminate|discriminate].
    + destruct Hm as [H2 H4].
      rewrite sub_ordinal_miss by (vm_compute; reflexivity).
      rewrite sub_title_mark_hit; auto using blank_isspace.
      apply sub_bullet_miss. apply not_marker_start; auto.
    + destruct Hm as [H3 H4].
      rewrite sub_ordinal_miss
        by (apply one_of_bullet in H3 as [->| ->]; vm_compute; reflexivity).
      cbn [app]. rewrite sub_title_mark_miss by auto.
      apply (sub_bullet_hit c0 ws (c :: b')); auto using blank_isspace.
  - destruct (render_starts _ Hm) as (c0 & t & -> & H0). exact H0.
  - rewrite rev_app_distr. destruct (rev (c :: b')) as [|z q] eqn:E.
    + apply (f_equal (@length char)) in E. rewrite length_rev in E. discriminate.
    + exact Hrev.
Qed.

Lemma split_chr_line (l : str) :
  existsb (eqc NL) l = false -> split_chr NL l = [l].
Proof.
  induction l as [|x l IH]; simpl; auto. rewrite orb_false_iff. intros [H1 H2].
  rewrite eqc_sym, H1, IH by auto. reflexivity.
Qed.

Lemma split_chr_app (l rest : str) :
  existsb (eqc NL) l = false ->
  split_chr NL (l ++ NL :: rest) = l :: split_chr NL rest.
Proof.
  induction l as [|x l IH]; simpl.
  - reflexivity.
  - rewrite orb_false_iff. intros [H1 H2]. rewrite eqc_sym, H1, IH by auto. reflexivity.
Qed.

Lemma split_join_lines (lines : list str) :
  lines <> [] ->
  Forall (fun l => existsb (eqc NL) l = false) lines ->
  split_chr NL (join [NL] lines) = lines.
Proof.
  induction lines as [|l lines IH]; intros Hne H; [congruence|].
  inversion H as [|? ? Hl Hrest]; subst. rewrite join_cons.
  destruct lines as [|l2 lines].
  - rewrite app_nil_r. apply split_chr_line; auto.
  - cbn [app]. rewrite split_chr_app by auto. f_equal. apply IH; auto. discriminate.
Qed.

(** A response of marked headline texts, one to a line. *)
Definition marked_lines (l : list (marker * str)) : str :=
  join [NL] (map (fun mb => render (fst mb) ++ snd mb) l).

Definition headline_ok (mb : marker * str) : Prop :=
  marker_ok (fst mb) = true /\ plain (snd mb) = true
  /\ 10 <= length (snd mb) <= 40.

Lemma title_loop_marked (l : list (marker * str)) :
  l <> [] -> Forall headline_ok l ->
  title_loop (split_chr NL (marked_lines l)) = map snd l.
Proof.
  intros Hne H. unfold marked_lines. rewrite split_join_lines.
  - rewrite title_loop_filter, map_map.
    induction H as [|[m b] l [H1 [H2 H3]] H IH]; [reflexivity|].
    cbn [fst snd] in *.
    cbn [map filter fst snd]. rewrite clean_line_marked by auto.
    replace (accepted b) with true by (symmetry; apply accepted_length; simpl in H3; lia).
    f_equal. destruct l as [|mb l]; [reflexivity|]. apply IH. discriminate.
  - destruct l; [congruence|discriminate].
  - apply Forall_map. eapply Forall_impl; [|exact H].
    intros [m b] [H1 [H2 H3]]. cbn [fst snd] in *. rewrite existsb_app.
    rewrite (render_no_newline _ H1).
    apply plain_facts in H2 as (H2 & _). rewrite H2. reflexivity.
Qed.

(** The fallback loop leaves at the fifth title. *)
Lemma fallback_loop_cap (lines : list str) :
  forall titles, length titles < 5 -> length (fallback_loop lines titles) <= 5.
Proof.
  induction lines as [|l lines IH]; intros titles H; cbn [fallback_loop]; [lia|].
  destruct (negb _ && _ && _ && _ && _); auto.
  destruct (sub no_flags re_ordinal [] None (strip l)) as [|c x] eqn:E; auto.
  cbv zeta. destruct (5 <=? _) eqn:L.
  - rewrite length_app. simpl. lia.
  - apply Nat.leb_gt in L. apply IH. exact L.
Qed.

End Headlines.

(** ** The shape of an assembled note *)

Section NoteShape.

Import Xiaohongshu.

(** The pieces of [output] that come before the body. *)
Definition note_head (title : str) (images : list str)
           (all_titles : option (list str)) : list str :=
  match all_titles with
  | Some l =>
      if 1 <? length l
      then [txt "# 备选标题" ++ [NL]] ++ numbered 1 l ++ [[NL] ++ txt "---" ++ [NL]]
      else []
  | None => []
  end
  ++ [txt "# " ++ title ++ [NL]]
  ++ match images with
     | i0 :: _ => [txt "![封面图](" ++ i0 ++ txt ")" ++ [NL]]
     | [] => []
     end.

(** The pieces between the two halves of the body. *)
Definition note_mid (images : list str) : list str :=
  [[NL]]
  ++ match images with
     | _ :: i1 :: _ => [[NL] ++ txt "![配图](" ++ i1 ++ txt ")" ++ [NL]]
     | _ => []
     end.

(** The pieces after the body. *)
Definition note_tail (tags images : list str) : list str :=
  match images with
  | _ :: _ :: i2 :: _ => [[NL; NL] ++ txt "![配图](" ++ i2 ++ txt ")"]
  | _ => []
  end
  ++ match tags with
     | [] => []
     | _ => [[NL; NL] ++ txt "---" ++ [NL]; join [NL] (map (fun tag => HASH :: tag) tags)]
     end.

Definition body_parts (content : str) : list str :=
  split_go [NL; NL] 0 (content_cleaned content).

Lemma format_note_pieces (content title : str) (tags images : list str)
      (all_titles : option (list str)) :
  format_note content title tags images all_titles =
  join [NL]
    (note_head title images all_titles
     ++ [join [NL; NL] (firstn (length (body_parts content) / 2) (body_parts content))]
     ++ note_mid images
     ++ [join [NL; NL] (skipn (length (body_parts content) / 2) (body_parts content))]
     ++ note_tail tags images).
Proof.
  unfold format_note, note_head, note_mid, note_tail, body_parts. cbv zeta.
  f_equal.
  destruct all_titles as [l|]; [destruct (1 <? length l)|];
    destruct images as [|i0 [|i1 [|i2 images]]];
    destruct tags as [|tag tags];
    cbn [app]; rewrite <- ?app_assoc; cbn [app]; reflexivity.
Qed.

End NoteShape.

(** ** Comparing documents *)

Fixpoint str_eqb (a b : str) : bool :=
  match a, b with
  | [], [] => true
  | x :: a', y :: b' => eqc x y && str_eqb a' b'
  | _, _ => false
  end.

Lemma str_eqb_eq (a b : str) : str_eqb a b = true <-> a = b.
Proof.
  revert b; induction a as [|x a IH]; intros [|y b]; simpl; split; intros H;
    try discriminate; auto.
  - apply andb_true_iff in H as [E H]. apply eqc_true in E. apply IH in H. congruence.
  - inversion H; subst. rewrite eqc_refl. apply IH. reflexivity.
Qed.

(** Number of lines of a document equal to [line]. *)
Definition count_line (line doc : str) : nat :=
  length (filter (str_eqb line) (split_chr NL doc)).

(** ** Running [format_note] on its own output *)

Section Rerun.

Import Xiaohongshu.

(** Decimal numerals have no newline in them. *)
Lemma string_of_uint_no_newline (d : Decimal.uint) :
  existsb (eqc NL) (txt (NilEmpty.string_of_uint d)) = false.
Proof.
  induction d; [reflexivity| | | | | | | | | |];
    change (existsb (eqc NL) (txt (NilEmpty.string_of_uint d)) = false) in IHd;
    cbn [NilEmpty.string_of_uint]; unfold txt; cbn [Utf8.bytes];
    match goal with
    | |- existsb _ (Utf8.decode (?b :: ?r)) = false =>
        change (Utf8.decode (b :: r)) with (b :: Utf8.decode r)
    end;
    cbn [existsb]; unfold txt in IHd; rewrite IHd; reflexivity.
Qed.

Lemma str_of_nat_no_newline (n : nat) : existsb (eqc NL) (str_of_nat n) = false.
Proof. apply string_of_uint_no_newline. Qed.

(** A numbered line is not empty and has no newline when the title has
    none. *)
Definition is_line (l : str) : Prop := existsb (eqc NL) l = false /\ l <> [].

Lemma numbered_lines (ts : list str) :
  Forall (fun t => existsb (eqc NL) t = false) ts ->
  forall i, Forall is_line (numbered i ts).
Proof.
  induction 1 as [|t ts Ht _ IH]; intros i; cbn [numbered]; constructor; auto.
  split.
  - rewrite !existsb_app, str_of_nat_no_newline, Ht. reflexivity.
  - change (txt ". ") with [DOT; SP]. destruct (str_of_nat i); discriminate.
Qed.

Lemma stops_app (p : char -> bool) (a b : str) :
  a <> [] -> stops p a -> stops p (a ++ b).
Proof. destruct a; [congruence|]. auto. Qed.

Lemma existsb_rev_eq (p : char -> bool) (l : str) : existsb p (rev l) = existsb p l.
Proof.
  induction l as [|c l IH]; [reflexivity|]. cbn [rev existsb].
  rewrite existsb_app, IH. cbn [existsb]. rewrite orb_false_r. apply orb_comm.
Qed.

Lemma is_line_starts (l : str) : is_line l -> stops (eqc NL) l /\ stops (eqc NL) (rev l).
Proof.
  intros [H Hne]. split.
  - destruct l as [|c l]; [exact I|]. cbn in *. apply orb_false_iff in H. tauto.
  - rewrite <- existsb_rev_eq in H. destruct (rev l) as [|c q]; [exact I|].
    cbn in *. apply orb_false_iff in H. tauto.
Qed.

(** A line followed by a newline and by text that does not start with a
    newline has no blank line in it. *)
Lemma contains_blank_line (l rest : str) :
  existsb (eqc NL) l = false -> rest <> [] -> stops (eqc NL) rest ->
  contains [NL; NL] rest = false ->
  contains [NL; NL] (l ++ NL :: rest) = false.
Proof.
  intros Hl Hne Hs Hr. induction l as [|x l IH]; cbn [app contains startswith].
  - rewrite Hr. destruct rest as [|y rest]; [congruence|]. cbn in Hs. rewrite Hs.
    rewrite !andb_false_r. reflexivity.
  - cbn in Hl. apply orb_false_iff in Hl as [Hx Hl]. rewrite Hx, IH by auto. reflexivity.
Qed.

Lemma contains_blank_single (l : str) :
  existsb (eqc NL) l = false -> contains [NL; NL] l = false.
Proof.
  induction l as [|x l IH]; intros Hl; [reflexivity|].
  cbn in Hl. apply orb_false_iff in Hl as [Hx Hl].
  cbn [contains startswith]. rewrite Hx, IH by auto. reflexivity.
Qed.

(** Lines joined by newlines: no blank line, no newline at either end. *)
Lemma joined_lines (lines : list str) :
  Forall is_line lines -> lines <> [] ->
  join [NL] lines <> []
  /\ contains [NL; NL] (join [NL] lines) = false
  /\ stops (eqc NL) (join [NL] lines)
  /\ stops (eqc NL) (rev (join [NL] lines)).
Proof.
  induction 1 as [|l lines Hl Hrest IH]; intros Hne; [congruence|].
  pose proof (is_line_starts Hl) as [Hs Hr]. destruct Hl as [Hl Hl2].
  rewrite join_cons. destruct lines as [|l2 lines].
  - rewrite app_nil_r. repeat split; auto using contains_blank_single.
  - destruct (IH ltac:(discriminate)) as (J0 & J1 & J2 & J3). cbn [app].
    repeat split.
    + destruct l; [congruence|discriminate].
    + apply contains_blank_line; auto.
    + apply stops_app; auto.
    + rewrite rev_app_distr. cbn [rev]. rewrite <- app_assoc.
      apply stops_app; auto. intros E. apply J0.
      apply (f_equal (@rev char)) in E. rewrite rev_involutive in E. exact E.
Qed.

(** The text [\n\n---\n\n#] that [re_rule_tags] starts with. *)
Definition rule_mark : str := [NL; NL] ++ txt "---" ++ [NL; NL; HASH].

Lemma rule_mark_fails (u : str) (x : char) (v rest : str) :
  contains [NL; NL] (u ++ x :: v) = false ->
  rest = [] \/ stops (eqc NL) (rev (u ++ x :: v)) ->
  startswith rule_mark (x :: v ++ rest) = false.
Proof.
  intros H Hr. apply contains_app in H as [_ H].
  cbn [contains] in H. apply orb_false_iff in H as [H _].
  change rule_mark with (NL :: NL :: txt "---" ++ [NL; NL; HASH]).
  cbn [startswith] in *. destruct (eqc NL x) eqn:Ex; [|reflexivity].
  destruct v as [|y v]; cbn [app].
  - destruct Hr as [-> | Hr]; [reflexivity|].
    rewrite rev_app_distr in Hr. cbn in Hr. congruence.
  - destruct (eqc NL y); [discriminate H|reflexivity].
Qed.

Lemma match_at_rule_tags_miss (adv : bool) (p : option char) (s : str) :
  startswith rule_mark s = false ->
  match_at dotall_flags re_rule_tags adv p s = None.
Proof.
  intros H. unfold match_at, re_rule_tags. cbn [Cat].
  rewrite rmatch_Seq, rmatch_Lit. fold rule_mark. rewrite H. reflexivity.
Qed.

Lemma match_at_rule_tags_hit (p : option char) (w : str) :
  exists m, match_at dotall_flags re_rule_tags false p (rule_mark ++ w) = Some m
            /\ m_pre m = [] /\ m_post m = [].
Proof.
  eexists. split.
  - unfold match_at, re_rule_tags. cbn [Cat].
    rewrite rmatch_Seq, rmatch_Lit. fold rule_mark.
    rewrite startswith_app, skipn_app_exact, rmatch_Seq, rmatch_star_Dot.
    apply greedy_run_first.
    destruct (@takeWhile_true (dot_test dotall_flags) w (fun _ => eq_refl)) as [-> ->].
    rewrite rmatch_Eol. cbn [andb]. reflexivity.
  - split; reflexivity.
Qed.

(** [\n\n---\n\n#.*$] cuts at the first rule followed by [#]. *)
Lemma sub_rule_tags_cut (l w : str) :
  contains [NL; NL] l = false -> stops (eqc NL) (rev l) ->
  sub dotall_flags re_rule_tags [] None (l ++ rule_mark ++ w) = l.
Proof.
  intros H1 H2. destruct (match_at_rule_tags_hit (lastc None l) w) as (m & Hm & Hp & Hq).
  rewrite (@sub_cut dotall_flags re_rule_tags None (l ++ rule_mark ++ w) (prepend l m)).
  - cbn [prepend m_pre]. rewrite Hp. apply app_nil_r.
  - unfold search. rewrite search_go_skip.
    + erewrite search_go_hit; [reflexivity|exact Hm].
    + intros u x v -> adv p. apply match_at_rule_tags_miss.
      apply (rule_mark_fails u); auto.
  - exact Hq.
  - intros adv prev. apply match_at_rule_tags_miss. reflexivity.
  - discriminate.
Qed.

Lemma sub_rule_tags_none (l : str) :
  contains [NL; NL] l = false ->
  sub dotall_flags re_rule_tags [] None l = l.
Proof.
  intros H. apply sub_no_match. unfold search.
  rewrite <- (app_nil_r l) at 1. rewrite search_go_skip.
  - cbn [search_go]. rewrite match_at_rule_tags_miss by reflexivity. reflexivity.
  - intros u x v -> adv p. apply match_at_rule_tags_miss.
    apply (rule_mark_fails u); auto.
Qed.

(** The trailing-tags pattern needs a blank line too. *)
Lemma sub_trailing_tags_none (l : str) :
  contains [NL; NL] l = false ->
  sub no_flags re_trailing_tags [] None l = l.
Proof.
  intros H. apply sub_no_match. unfold search.
  rewrite <- (app_nil_r l) at 1. rewrite search_go_skip.
  - reflexivity.
  - intros u x v -> adv p. apply contains_app in H as [_ H].
    cbn [contains startswith] in H. apply orb_false_iff in H as [H _].
    unfold match_at, re_trailing_tags. cbn [Cat].
    rewrite rmatch_Seq, rmatch_Chr. rewrite app_nil_r.
    rewrite (eqc_sym x NL). destruct (eqc NL x); [|reflexivity].
    rewrite rmatch_Seq, rmatch_Chr. destruct v as [|y v]; [reflexivity|].
    rewrite (eqc_sym y NL). destruct (eqc NL y); [discriminate H|reflexivity].
Qed.

(** [^#\s+.*?\n] takes the first line off when it is a heading. *)
Lemma sub_heading_hit (h rest : str) :
  h <> [] -> stops isspace h -> existsb (eqc NL) h = false ->
  sub no_flags re_heading [] (Some 1) (HASH :: SP :: h ++ NL :: rest) = rest.
Proof.
  intros Hne Hs Hnl. unfold re_heading. cbn [Cat].
  eapply sub_bol_post; [reflexivity| | |len_solve|discriminate].
  - unfold match_at, Plus.
    rewrite rmatch_Seq, rmatch_Bol, rmatch_Seq, rmatch_Chr, eqc_refl.
    rewrite !rmatch_Seq, rmatch_Cls.
    replace (isspace SP) with true by reflexivity.
    rewrite rmatch_star_Cls. apply greedy_run_first.
    assert (Hv : stops isspace (h ++ NL :: rest)) by (apply stops_app; auto).
    pose proof (@takeWhile_stops isspace [] _ eq_refl Hv) as E1.
    pose proof (@dropWhile_stops isspace [] _ eq_refl Hv) as E2.
    cbn [app] in E1, E2. rewrite E1, E2.
    rewrite rmatch_Seq, rmatch_lazy_Dot. apply lazy_dot_chr.
    + clear - Hnl. induction h as [|y h IH]; [reflexivity|].
      cbn in Hnl. apply orb_false_iff in Hnl as [Hy Hnl].
      cbn [forallb]. rewrite IH by auto. unfold dot_test.
      rewrite (eqc_sym y NL), Hy. reflexivity.
    + cbn [andb]. reflexivity.
  - reflexivity.
Qed.

Lemma sub_heading_miss (c : char) (s : str) :
  eqc c HASH = false -> sub no_flags re_heading [] (Some 1) (c :: s) = c :: s.
Proof.
  intros H. unfold re_heading. cbn [Cat]. apply sub_bol_miss; [reflexivity|].
  unfold match_at. rewrite rmatch_Seq, rmatch_Bol, rmatch_Seq, rmatch_Chr, H.
  reflexivity.
Qed.

(** The numbered candidates of the preamble, as one text. *)
Definition candidates (ts : list str) : str := join [NL] (numbered 1 ts).

Lemma candidates_head (t : str) (ts : list str) :
  exists l, candidates (t :: ts) = 49%N :: l.
Proof.
  unfold candidates. cbn [numbered]. rewrite join_cons.
  change (str_of_nat 1) with [49%N]. eexists. reflexivity.
Qed.

Lemma candidates_no_heading (t : str) (ts : list str) :
  sub no_flags re_heading [] (Some 1) (candidates (t :: ts)) = candidates (t :: ts).
Proof.
  destruct (candidates_head t ts) as [l ->]. apply sub_heading_miss. reflexivity.
Qed.

Lemma candidates_starts (t : str) (ts : list str) :
  forall rest, stops isspace (candidates (t :: ts) ++ rest).
Proof. intros rest. destruct (candidates_head t ts) as [l ->]. reflexivity. Qed.

(** An output with a preamble starts with the heading of the preamble,
    the candidates and the rule, and goes on with the title heading. *)
Lemma format_note_starts (content title : str) (tags images : list str)
      (ts : list str) :
  1 < length ts ->
  exists w,
    format_note content title tags images (Some ts)
    = txt "# 备选标题" ++ [NL; NL] ++ candidates ts ++ rule_mark
        ++ SP :: title ++ NL :: w.
Proof.
  intros Hts. rewrite format_note_pieces. unfold note_head.
  replace (1 <? length ts) with true by (symmetry; apply Nat.ltb_lt; exact Hts).
  set (a := join [NL; NL] (firstn _ _)). set (b := join [NL; NL] (skipn _ _)).
  set (cover := match images with
                | [] => []
                | i0 :: _ => [txt "![封面图](" ++ i0 ++ txt ")" ++ [NL]]
                end).
  set (more := cover ++ [a] ++ note_mid images ++ [b] ++ note_tail tags images).
  assert (Hn : numbered 1 ts <> []) by (destruct ts; [simpl in Hts; lia|discriminate]).
  match goal with |- context [join [NL] ?l] => set (pieces := l) end.
  assert (Hp : pieces
               = (txt "# 备选标题" ++ [NL])
                   :: (numbered 1 ts
                         ++ ([NL] ++ txt "---" ++ [NL])
                         :: (txt "# " ++ title ++ [NL]) :: more))
    by (unfold pieces, more; cbn [app]; rewrite <- !app_assoc; cbn [app]; reflexivity).
  rewrite Hp. clear Hp pieces.
  rewrite join_cons.
  destruct (numbered 1 ts ++ _) eqn:E; [destruct (numbered 1 ts); discriminate|].
  rewrite <- E. rewrite join_app by (auto; discriminate).
  rewrite !join_cons. fold (candidates ts).
  unfold rule_mark. change (txt "# ") with [HASH; SP].
  exists (match more with [] => [] | _ :: _ => [NL] ++ join [NL] more end).
  app_norm. reflexivity.
Qed.

(** What the second run cleans its input down to: the candidates. *)
Lemma content_cleaned_rerun (content title : str) (tags images : list str)
      (ts : list str) :
  1 < length ts ->
  Forall (fun t => existsb (eqc NL) t = false) ts ->
  content_cleaned (format_note content title tags images (Some ts))
  = strip (candidates ts).
Proof.
  intros Hts Hnl.
  destruct (@format_note_starts content title tags images ts Hts) as [w ->].
  destruct ts as [|t0 ts0]; [simpl in Hts; lia|].
  destruct (@joined_lines (numbered 1 (t0 :: ts0)))
    as (_ & J1 & _ & J3);
    [apply numbered_lines; auto|discriminate|].
  fold (candidates (t0 :: ts0)) in J1, J3.
  unfold content_cleaned.
  change (txt "# 备选标题") with (HASH :: SP :: txt "备选标题").
  cbn [app].
  rewrite (@sub_heading_hit (txt "备选标题")
             (NL :: candidates (t0 :: ts0) ++ rule_mark ++ SP :: title ++ NL :: w));
    [|discriminate|reflexivity|reflexivity].
  (* the white space around what is left *)
  assert (Hstrip :
            strip (NL :: candidates (t0 :: ts0) ++ rule_mark ++ SP :: title ++ NL :: w)
            = candidates (t0 :: ts0) ++ rule_mark ++ rstrip (SP :: title ++ NL :: w)).
  { unfold strip. unfold lstrip at 1. cbn [dropWhile].
    replace (isspace NL) with true by reflexivity.
    fold (lstrip (candidates (t0 :: ts0) ++ rule_mark ++ SP :: title ++ NL :: w)).
    rewrite lstrip_id by apply candidates_starts.
    unfold rule_mark.
    replace (candidates (t0 :: ts0) ++ ([NL; NL] ++ txt "---" ++ [NL; NL; HASH])
               ++ SP :: title ++ NL :: w)
      with ((candidates (t0 :: ts0) ++ [NL; NL] ++ txt "---" ++ [NL; NL])
              ++ HASH :: SP :: title ++ NL :: w)
      by (app_norm; reflexivity).
    rewrite rstrip_app_keep by reflexivity.
    app_norm. reflexivity. }
  rewrite Hstrip, sub_rule_tags_cut, sub_trailing_tags_none by auto.
  reflexivity.
Qed.

Lemma content_cleaned_candidates (ts : list str) :
  ts <> [] ->
  Forall (fun t => existsb (eqc NL) t = false) ts ->
  content_cleaned (candidates ts) = strip (candidates ts).
Proof.
  intros Hne Hnl. destruct ts as [|t0 ts0]; [congruence|].
  destruct (@joined_lines (numbered 1 (t0 :: ts0)))
    as (_ & J1 & _ & J3);
    [apply numbered_lines; auto|discriminate|].
  fold (candidates (t0 :: ts0)) in J1, J3.
  unfold content_cleaned. rewrite candidates_no_heading.
  destruct (strip_piece (candidates (t0 :: ts0))) as (u & w & E).
  assert (Hc : contains [NL; NL] (strip (candidates (t0 :: ts0))) = false)
    by (rewrite E in J1; apply (contains_piece _ _ _ _ J1)).
  rewrite sub_rule_tags_none, sub_trailing_tags_none by auto.
  apply strip_idem.
Qed.

(** [format_note] reads its content only through the cleaning steps. *)
Lemma format_note_cleaned (c1 c2 title : str) (tags images : list str)
      (all_titles : option (list str)) :
  content_cleaned c1 = content_cleaned c2 ->
  format_note c1 title tags images all_titles
  = format_note c2 title tags images all_titles.
Proof. intros H. unfold format_note. rewrite H. reflexivity. Qed.

(** The second run is one run on the candidates. *)
Lemma format_note_rerun (content title : str) (tags images : list str)
      (ts : list str) :
  1 < length ts ->
  Forall (fun t => existsb (eqc NL) t = false) ts ->
  format_note (format_note content title tags images (Some ts))
              title tags images (Some ts)
  = format_note (candidates ts) title tags images (Some ts).
Proof.
  intros Hts Hnl. apply format_note_cleaned.
  rewrite content_cleaned_rerun, content_cleaned_candidates; auto.
  destruct ts; [simpl in Hts; lia|discriminate].
Qed.

End Rerun.

(** ** Running [format_blog] on its own output *)

(** [v] is not empty and its last character is not in [p]. *)
Definition ends_off (p : char -> bool) (v : str) : Prop :=
  exists t c, v = t ++ [c] /\ p c = false.

Lemma ends_off_rev (p : char -> bool) (s : str) :
  s <> [] -> stops p (rev s) -> ends_off p s.
Proof.
  intros Hne H. destruct (rev s) as [|c t] eqn:E.
  - apply (f_equal (@rev char)) in E. rewrite rev_involutive in E. contradiction.
  - apply (f_equal (@rev char)) in E. rewrite rev_involutive in E.
    exists (rev t), c. split; [exact E|exact H].
Qed.

Lemma ends_off_not_nil (p : char -> bool) (v : str) : ends_off p v -> v <> [].
Proof. intros (t & c & -> & _). destruct t; discriminate. Qed.

Lemma ends_off_suffix (p : char -> bool) (u v : str) :
  ends_off p (u ++ v) -> v <> [] -> ends_off p v.
Proof.
  intros (t & c & E & Hc) Hne.
  destruct (exists_last Hne) as (v' & d & ->).
  rewrite app_assoc in E. apply app_inj_tail in E as [_ ->].
  exists v', c. auto.
Qed.

Lemma ends_off_app (p : char -> bool) (u v : str) : ends_off p v -> ends_off p (u ++ v).
Proof. intros (t & c & -> & Hc). exists (u ++ t), c. rewrite app_assoc. auto. Qed.

Lemma ends_off_weaken (p q : char -> bool) (v : str) :
  (forall c, q c = true -> p c = true) -> ends_off p v -> ends_off q v.
Proof.
  intros H (t & c & -> & Hc). exists t, c. split; [reflexivity|].
  destruct (q c) eqn:E; [|reflexivity]. apply H in E. congruence.
Qed.

(** A run of [p] at the start of such a text ends inside it. *)
Lemma ends_off_drop (p : char -> bool) (v w : str) :
  ends_off p v -> dropWhile p (v ++ w) = dropWhile p v ++ w.
Proof.
  intros (t & c & -> & Hc). rewrite <- app_assoc. cbn [app].
  rewrite !dropWhile_keep by assumption. rewrite <- app_assoc. reflexivity.
Qed.

Lemma ends_off_dropWhile (p : char -> bool) (v : str) :
  ends_off p v -> ends_off p (dropWhile p v).
Proof.
  intros (t & c & -> & Hc). rewrite dropWhile_keep by assumption.
  exists (dropWhile p t), c. auto.
Qed.

(** A prefix found across a seam either lies before it or holds the
    character behind it. *)
Lemma startswith_straddle (p d : str) (c : char) (r : str) :
  startswith p (d ++ c :: r) = true ->
  startswith p d = true \/ existsb (eqc c) p = true.
Proof.
  revert d. induction p as [|a p IH]; intros d H; [left; reflexivity|].
  destruct d as [|b d]; cbn [app startswith existsb] in *.
  - apply andb_true_iff in H as [H _]. right. rewrite (eqc_sym c a), H. reflexivity.
  - apply andb_true_iff in H as [H1 H2]. rewrite H1.
    destruct (IH _ H2) as [E|E]; [left; exact E|right; rewrite E; apply orb_true_r].
Qed.

Lemma startswith_first (p : str) (c : char) (x : str) :
  startswith (firstn 1 p) [c] = false -> startswith p (c :: x) = false.
Proof.
  destruct p as [|a p]; cbn [firstn startswith]; [discriminate|].
  destruct (eqc a c); [discriminate|reflexivity].
Qed.

Lemma contains_starts (p a d : str) :
  contains p (a ++ d) = false -> startswith p d = false.
Proof.
  intros H. apply contains_app in H as [_ H].
  destruct d; cbn [contains] in H; apply orb_false_iff in H as [H _]; exact H.
Qed.

Lemma contains_intro (p a b : str) : contains p (a ++ p ++ b) = true.
Proof.
  induction a as [|c a IH]; cbn [app].
  - destruct (p ++ b) eqn:E; cbn [contains]; rewrite <- ?E, startswith_app; reflexivity.
  - cbn [contains]. rewrite IH. apply orb_true_r.
Qed.

(** A property of every non-empty suffix, checked by running through the
    text. *)
Fixpoint all_tails (q : str -> bool) (s : str) : bool :=
  match s with
  | [] => true
  | _ :: s' => q s && all_tails q s'
  end.

Lemma all_tails_spec (q : str -> bool) (s : str) :
  all_tails q s = true -> forall l t, s = l ++ t -> t <> [] -> q t = true.
Proof.
  induction s as [|x s IH]; intros H l t E Hne.
  - destruct l, t; try discriminate. contradiction.
  - cbn [all_tails] in H. apply andb_true_iff in H as [H1 H2].
    destruct l as [|y l]; cbn [app] in E.
    + subst t. exact H1.
    + inversion E; subst. eapply IH; eauto.
Qed.

(** Two patterns that match alike at every position are searched and
    substituted alike. *)
Section SamePattern.

Variable fl : flags.
Variables r1 r2 : regex.
Hypothesis same : forall adv prev s, match_at fl r1 adv prev s = match_at fl r2 adv prev s.

Lemma search_go_same (s : str) :
  forall adv prev, search_go fl r1 adv prev s = search_go fl r2 adv prev s.
Proof.
  induction s as [|x s IH]; intros adv prev; cbn [search_go]; rewrite same; [reflexivity|].
  rewrite IH. reflexivity.
Qed.

Lemma sub_go_same (repl : str) (n : nat) :
  forall cnt adv prev s,
    sub_go fl r1 n repl cnt adv prev s = sub_go fl r2 n repl cnt adv prev s.
Proof.
  induction n as [|n IH]; intros cnt adv prev s; [reflexivity|].
  cbn [sub_go]. rewrite search_go_same.
  destruct (search_go fl r2 adv prev s) as [m|]; [|reflexivity].
  rewrite IH. reflexivity.
Qed.

Lemma sub_same (repl : str) (cnt : option nat) (s : str) :
  sub fl r1 repl cnt s = sub fl r2 repl cnt s.
Proof. apply sub_go_same. Qed.

End SamePattern.

(** Nothing is found where no position matches. *)
Lemma search_none (fl : flags) (r : regex) (s : str) :
  (forall u v, s = u ++ v -> forall adv p, match_at fl r adv p v = None) ->
  search fl r s = None.
Proof.
  intros H. unfold search. rewrite <- (app_nil_r s) at 1. rewrite search_go_skip.
  - cbn [search_go]. rewrite (H s []) by (symmetry; apply app_nil_r). reflexivity.
  - intros u x v -> adv p. rewrite app_nil_r. apply (H u (x :: v)). reflexivity.
Qed.

(** *** Blocks behind a rule *)

(** [\n*---\n*] followed by a label and [.*$] under [re.DOTALL]: the shape
    of [re_footer_block] and of [re_disclaimer]. *)
Definition rule_block (lbl : str) : regex :=
  Cat [Star true (Chr NL); Lit (txt "---"); Star true (Chr NL);
       Lit lbl; Star true Dot; Eol].

Definition skip_nl (s : str) : str := dropWhile (is_ NL) s.

(** The text is newlines, [---], newlines and the label, then anything. *)
Definition hitb (lbl s : str) : bool :=
  startswith (txt "---") (skip_nl s)
  && startswith lbl (skip_nl (skipn 3 (skip_nl s))).

(** What is left before the first position where [hitb] holds. *)
Fixpoint cut_at (lbl s : str) : str :=
  if hitb lbl s then []
  else match s with
       | [] => []
       | x :: s' => x :: cut_at lbl s'
       end.

(** No rule block starts anywhere in [s]. *)
Definition free (lbl s : str) : Prop :=
  forall u v, s = u ++ v -> hitb lbl v = false.

Section RuleBlock.

Variable lbl : str.
Hypothesis lbl_line : existsb (eqc NL) lbl = false.
Hypothesis lbl_some : lbl <> [].

Lemma lbl_stops (x : str) : stops (is_ NL) (lbl ++ x).
Proof.
  destruct lbl as [|c l]; [contradiction|]. cbn in *.
  apply orb_false_iff in lbl_line as [H _]. unfold is_. rewrite eqc_sym. exact H.
Qed.

Lemma dashes_stops (x : str) : stops (is_ NL) (txt "---" ++ x).
Proof. reflexivity. Qed.

Lemma newline_first (p : str) (v : str) :
  (forall x, stops (is_ NL) (p ++ x)) -> p <> [] ->
  forall c, is_ NL c = true -> startswith p (c :: v) = false.
Proof.
  intros H Hne c Hc. destruct p as [|a p]; [contradiction|].
  specialize (H []). cbn in H. unfold is_ in *. apply eqc_true in Hc; subst c.
  cbn [startswith]. rewrite H. reflexivity.
Qed.

(** The head of a rule block is read in one way only. *)
Lemma rmatch_rule (fl : flags) (A : Type) (t : regex) (prev : option char) (s : str)
      (g : option str) (k : kont A) :
  exists p',
    rmatch fl (Seq (Star true (Chr NL))
                   (Seq (Lit (txt "---")) (Seq (Star true (Chr NL)) (Seq (Lit lbl) t))))
           prev s g k
    = if hitb lbl s
      then rmatch fl t p' (skipn (length lbl) (skip_nl (skipn 3 (skip_nl s)))) g k
      else None.
Proof.
  eexists. rewrite rmatch_Seq, rmatch_star_Chr, greedy_run_exact.
  2:{ intros p0 c v g0 Hc. rewrite rmatch_Seq, rmatch_Lit.
      rewrite (@newline_first (txt "---") v dashes_stops) by (auto; discriminate).
      reflexivity. }
  rewrite rmatch_Seq, rmatch_Lit. unfold hitb. fold (skip_nl s).
  destruct (startswith (txt "---") (skip_nl s)); [|reflexivity].
  change (length (txt "---")) with 3.
  rewrite rmatch_Seq, rmatch_star_Chr, greedy_run_exact.
  2:{ intros p0 c v g0 Hc. rewrite rmatch_Seq, rmatch_Lit.
      rewrite (@newline_first lbl v lbl_stops) by auto.
      reflexivity. }
  rewrite rmatch_Seq, rmatch_Lit. fold (skip_nl (skipn 3 (skip_nl s))).
  cbn [andb]. destruct (startswith lbl _); reflexivity.
Qed.

Lemma match_at_rule_block_miss (adv : bool) (prev : option char) (s : str) :
  hitb lbl s = false -> match_at dotall_flags (rule_block lbl) adv prev s = None.
Proof.
  intros H. unfold match_at, rule_block. cbn [Cat].
  edestruct rmatch_rule as [p' ->]. rewrite H. reflexivity.
Qed.

Lemma match_at_rule_block_hit (prev : option char) (s : str) :
  hitb lbl s = true ->
  exists m, match_at dotall_flags (rule_block lbl) false prev s = Some m
            /\ m_pre m = [] /\ m_post m = [].
Proof.
  intros H. unfold match_at, rule_block. cbn [Cat].
  edestruct rmatch_rule as [p' ->]. rewrite H. eexists. split.
  - apply rmatch_rest; [reflexivity|]. cbn [andb]. reflexivity.
  - split; reflexivity.
Qed.

(** The search stops at the first position where the block starts. *)
Lemma search_rule_block (s : str) :
  forall prev,
    match search_go dotall_flags (rule_block lbl) false prev s with
    | Some m => m_pre m = cut_at lbl s /\ m_post m = []
    | None => cut_at lbl s = s
    end.
Proof.
  induction s as [|x s IH]; intros prev.
  - cbn [search_go]. rewrite match_at_rule_block_miss by reflexivity. reflexivity.
  - cbn [search_go cut_at]. destruct (hitb lbl (x :: s)) eqn:E.
    + destruct (match_at_rule_block_hit prev _ E) as (m & -> & Hp & Hq). auto.
    + rewrite match_at_rule_block_miss by assumption.
      specialize (IH (Some x)).
      destruct (search_go dotall_flags (rule_block lbl) false (Some x) s) as [m|];
        cbn [option_map add_pre m_pre m_post].
      * destruct IH as [-> ->]. auto.
      * rewrite IH. reflexivity.
Qed.

(** [re.sub] with such a pattern cuts the text at the first block. *)
Lemma sub_rule_block (s : str) :
  sub dotall_flags (rule_block lbl) [] None s = cut_at lbl s.
Proof.
  pose proof (search_rule_block s None) as H. fold (search dotall_flags (rule_block lbl) s) in H.
  destruct (search dotall_flags (rule_block lbl) s) as [m|] eqn:S.
  - destruct H as [H1 H2]. rewrite <- H1. apply sub_cut; [exact S|exact H2| |discriminate].
    intros adv prev. apply match_at_rule_block_miss. reflexivity.
  - rewrite H. apply sub_no_match. exact S.
Qed.

(** A block that starts in a text starts in every extension of it. *)
Lemma hitb_app (v w : str) : hitb lbl v = true -> hitb lbl (v ++ w) = true.
Proof.
  unfold hitb. intros H. apply andb_true_iff in H as [H1 H2].
  assert (E1 : skip_nl (v ++ w) = skip_nl v ++ w).
  { unfold skip_nl in *. apply startswith_true in H1 as [t Ht].
    pose proof (dropWhile_takeWhile (is_ NL) v) as Hv.
    rewrite <- Hv at 1. rewrite <- app_assoc.
    apply dropWhile_stops; [apply takeWhile_all|]. rewrite Ht.
    rewrite <- app_assoc. apply dashes_stops. }
  rewrite E1. apply startswith_true in H1 as [t Ht]. rewrite Ht in *.
  rewrite <- app_assoc, startswith_app. cbn [andb].
  change (skipn 3 (txt "---" ++ t ++ w)) with (t ++ w).
  change (skipn 3 (txt "---" ++ t)) with t in H2.
  apply startswith_true in H2 as [t' Ht'].
  assert (E2 : skip_nl (t ++ w) = skip_nl t ++ w).
  { unfold skip_nl in *.
    pose proof (dropWhile_takeWhile (is_ NL) t) as Hv.
    rewrite <- Hv at 1. rewrite <- app_assoc.
    apply dropWhile_stops; [apply takeWhile_all|]. rewrite Ht'.
    rewrite <- app_assoc. apply lbl_stops. }
  rewrite E2, Ht', <- app_assoc. apply startswith_app.
Qed.

Lemma hitb_app_false (v w : str) : hitb lbl (v ++ w) = false -> hitb lbl v = false.
Proof.
  intros H. destruct (hitb lbl v) eqn:E; [|reflexivity].
  rewrite (hitb_app v w E) in H. discriminate.
Qed.

Lemma free_piece (a s b : str) : free lbl (a ++ s ++ b) -> free lbl s.
Proof.
  intros H u v ->. apply (hitb_app_false v b). apply (H (a ++ u)).
  rewrite <- !app_assoc. reflexivity.
Qed.

Lemma free_strip (s : str) : free lbl s -> free lbl (strip s).
Proof.
  intros H. destruct (strip_piece s) as (u & w & E).
  apply (@free_piece u (strip s) w). rewrite <- E. exact H.
Qed.

Lemma free_prefix (s w : str) : free lbl (s ++ w) -> free lbl s.
Proof. intros H. apply (@free_piece [] s w). exact H. Qed.

Lemma free_nil : free lbl [].
Proof. intros u v E. symmetry in E. apply app_eq_nil in E as [_ ->]. reflexivity. Qed.

Lemma free_cons (c : char) (s : str) :
  hitb lbl (c :: s) = false -> free lbl s -> free lbl (c :: s).
Proof.
  intros H1 H2 u v E. destruct u as [|y u]; cbn [app] in E.
  - subst v. exact H1.
  - inversion E; subst. apply (H2 u v). reflexivity.
Qed.

Lemma cut_prefix (s : str) : exists w, s = cut_at lbl s ++ w.
Proof.
  induction s as [|x s [w IH]]; cbn [cut_at].
  - exists []. destruct (hitb lbl []); reflexivity.
  - destruct (hitb lbl (x :: s)); [exists (x :: s); reflexivity|].
    exists w. cbn [app]. rewrite <- IH. reflexivity.
Qed.

(** What the cut leaves has no block in it. *)
Lemma cut_free (s : str) : free lbl (cut_at lbl s).
Proof.
  induction s as [|x s IH]; cbn [cut_at].
  - destruct (hitb lbl []); apply free_nil.
  - destruct (hitb lbl (x :: s)) eqn:E; [apply free_nil|].
    apply free_cons; [|exact IH].
    destruct (cut_prefix s) as [w Hw].
    apply (hitb_app_false (x :: cut_at lbl s) w). cbn [app]. rewrite <- Hw. exact E.
Qed.

Lemma cut_hit (s : str) : hitb lbl s = true -> cut_at lbl s = [].
Proof. intros H. destruct s; cbn [cut_at]; rewrite H; reflexivity. Qed.

Lemma cut_free_id (s : str) : free lbl s -> cut_at lbl s = s.
Proof.
  induction s as [|x s IH]; intros H; cbn [cut_at].
  - destruct (hitb lbl []); reflexivity.
  - rewrite (H [] (x :: s) eq_refl). f_equal. apply IH.
    intros u v ->. apply (H (x :: u) v). reflexivity.
Qed.

(** The cut falls at a block before which none starts. *)
Lemma cut_app (a b : str) :
  (forall u v, a = u ++ v -> v <> [] -> hitb lbl (v ++ b) = false) ->
  hitb lbl b = true ->
  cut_at lbl (a ++ b) = a.
Proof.
  intros H Hb. induction a as [|x a IH]; cbn [app].
  - apply cut_hit. exact Hb.
  - pose proof (H [] (x :: a) eq_refl ltac:(discriminate)) as E. cbn [app] in E.
    cbn [cut_at]. rewrite E. f_equal.
    apply IH. intros u v -> Hv. apply (H (x :: u) v); auto.
Qed.

(** A block does not start in a text that ends off a newline and go on
    across a newline behind it, unless it is all in the text. *)
Lemma hitb_straddle (v r : str) :
  ends_off (is_ NL) v ->
  startswith lbl (skip_nl (NL :: r)) = false ->
  hitb lbl (v ++ NL :: r) = true -> hitb lbl v = true.
Proof.
  intros Hv Hr H. unfold hitb in *. apply andb_true_iff in H as [H1 H2].
  unfold skip_nl in *. rewrite (ends_off_drop _ Hv) in H1, H2.
  pose proof (ends_off_dropWhile Hv) as Hd.
  destruct (startswith_straddle _ _ _ _ H1) as [E|E]; [|discriminate E].
  rewrite E. cbn [andb]. apply startswith_true in E as [t Ht]. rewrite Ht in *.
  rewrite <- app_assoc in H2.
  change (skipn 3 (txt "---" ++ t ++ NL :: r)) with (t ++ NL :: r) in H2.
  change (skipn 3 (txt "---" ++ t)) with t.
  destruct t as [|y t].
  - cbn [app] in H2. rewrite Hr in H2. discriminate.
  - assert (Ht' : ends_off (is_ NL) (y :: t))
      by (apply (ends_off_suffix (txt "---") Hd); discriminate).
    rewrite (ends_off_drop _ Ht') in H2.
    destruct (startswith_straddle _ _ _ _ H2) as [E|E]; [exact E|].
    rewrite lbl_line in E. discriminate.
Qed.

End RuleBlock.

(** *** The patterns of [format_blog] *)

Section BlogRerun.

Import Blog.

(** The label that the preamble and bullet patterns look for. *)
Definition source_label : str := txt "思想来源".

Definition footer_label : str := txt "**文章元信息**".
Definition disclaimer_label : str := txt "*本文由 AI 辅助创作".

Lemma re_footer_block_rule : re_footer_block = rule_block footer_label.
Proof. vm_compute. reflexivity. Qed.

Lemma re_disclaimer_rule : re_disclaimer = rule_block disclaimer_label.
Proof. vm_compute. reflexivity. Qed.

Lemma sub_footer_block (s : str) :
  sub dotall_flags re_footer_block [] None s = cut_at footer_label s.
Proof. rewrite re_footer_block_rule. apply sub_rule_block; [reflexivity|discriminate]. Qed.

Lemma sub_disclaimer (s : str) :
  sub dotall_flags re_disclaimer [] None s = cut_at disclaimer_label s.
Proof. rewrite re_disclaimer_rule. apply sub_rule_block; [reflexivity|discriminate]. Qed.

(** [[\n\s]] is [\s]. *)
Lemma newline_or_space (u : str) :
  forallb (fun c => eqc c NL || isspace c) u = true -> forallb isspace u = true.
Proof.
  induction u as [|c u IH]; [reflexivity|]. cbn [forallb]. intros H.
  apply andb_true_iff in H as [H1 H2]. rewrite IH by assumption.
  destruct (eqc c NL) eqn:E; [apply eqc_true in E; subst c; reflexivity|].
  cbn [orb] in H1. rewrite H1. reflexivity.
Qed.

(** A preamble pattern matches only where the label follows the white
    space at the position. *)
Lemma preamble_sound (lit : str) (t : regex) (adv : bool) (p : option char)
      (s : str) (m : mtch) :
  startswith source_label lit = true ->
  match_at multiline_flags
    (Seq Bol (Seq (Star true (Cls (fun c => eqc c NL || isspace c))) (Seq (Lit lit) t)))
    adv p s = Some m ->
  startswith source_label (lstrip s) = true.
Proof.
  intros Hl H. unfold match_at in H. rewrite rmatch_Seq, rmatch_Bol in H.
  assert (H' : rmatch multiline_flags
                 (Seq (Star true (Cls (fun c => eqc c NL || isspace c))) (Seq (Lit lit) t))
                 p s None
                 (fun p' s' g' =>
                    if adv && (length s' =? length s) then None
                    else Some (Mtch [] (firstn (length s - length s') s) g' p' s'))
               = Some m).
  { destruct p as [x|]; [|exact H].
    destruct (MULTILINE multiline_flags && eqc x NL); [exact H|discriminate]. }
  clear H. rewrite rmatch_Seq, rmatch_star_Cls in H'.
  apply greedy_run_some in H' as (u & v & -> & Hu & H).
  rewrite rmatch_Seq, rmatch_Lit in H.
  destruct (startswith lit v) eqn:E; [|discriminate].
  apply startswith_true in E as [w ->]. apply startswith_true in Hl as [l' ->].
  unfold lstrip. rewrite dropWhile_stops.
  - rewrite <- app_assoc. apply startswith_app.
  - apply newline_or_space. exact Hu.
  - rewrite <- app_assoc. reflexivity.
Qed.

Lemma preamble_annotated_sound (adv : bool) (p : option char) (s : str) (m : mtch) :
  match_at multiline_flags re_preamble_annotated adv p s = Some m ->
  startswith source_label (lstrip s) = true.
Proof.
  unfold re_preamble_annotated. cbn [Cat]. apply preamble_sound. reflexivity.
Qed.

Lemma preamble_plain_sound (adv : bool) (p : option char) (s : str) (m : mtch) :
  match_at multiline_flags re_preamble_plain adv p s = Some m ->
  startswith source_label (lstrip s) = true.
Proof.
  unfold re_preamble_plain. cbn [Cat]. apply preamble_sound. reflexivity.
Qed.

(** The bullet pattern matches only in a text that holds the label. *)
Lemma bullet_block_sound (adv : bool) (p : option char) (s : str) (m : mtch) :
  match_at dotall_flags re_bullet_block adv p s = Some m ->
  contains source_label s = true.
Proof.
  unfold match_at, re_bullet_block. cbn [Cat]. intros H.
  rewrite rmatch_Seq, rmatch_star_Chr in H.
  apply greedy_run_some in H as (u & v & -> & Hu & H).
  rewrite rmatch_Seq, rmatch_Lit in H.
  destruct (startswith (txt "- 思想来源") v) eqn:E; [|discriminate].
  apply startswith_true in E as [w ->].
  change (txt "- 思想来源") with ([DASH; SP] ++ source_label).
  rewrite <- app_assoc, app_assoc. apply contains_intro.
Qed.

Lemma sub_bullet_block_none (s : str) :
  contains source_label s = false ->
  sub dotall_flags re_bullet_block [] None s = s.
Proof.
  intros H. apply sub_no_match, search_none. intros u v -> adv p.
  destruct (match_at dotall_flags re_bullet_block adv p v) eqn:E; [|reflexivity].
  apply bullet_block_sound in E. apply contains_app in H as [_ H]. congruence.
Qed.

(** The bullet pattern runs to the end: what it leaves is the text before
    its match. *)
Lemma sub_bullet_block_prefix (s : str) :
  exists w, s = sub dotall_flags re_bullet_block [] None s ++ w.
Proof.
  rewrite (@sub_same dotall_flags re_bullet_block
             (to_end (Cat [Star true (Chr NL); Lit (txt "- 思想来源"); Star false Dot;
                           Lit (NL :: txt "- 原始视频"); Star false Dot; Chr NL]))).
  - apply sub_to_end_prefix. reflexivity.
  - intros adv prev s0. reflexivity.
Qed.

(** *** The footer *)

(** The start of every footer. *)
Definition footer_head : str :=
  [NL; NL] ++ txt "---" ++ [NL; NL] ++ footer_label.

Lemma footer_split (video_info : dict) :
  footer video_info = footer_head ++ skipn 16 (footer video_info).
Proof.
  rewrite <- (firstn_skipn 16 (footer video_info)) at 1. f_equal.
Qed.

(** *** The second run *)

Section SecondRun.

(** The first character of [t] that is not white space is there and does
    not start the label. *)
Definition off_label (t : str) : bool :=
  match lstrip t with
  | [] => false
  | c :: _ => negb (startswith (firstn 1 source_label) [c])
  end.

Lemma off_label_spec (t rest : str) :
  off_label t = true -> startswith source_label (lstrip (t ++ rest)) = false.
Proof.
  unfold off_label, lstrip. intros H.
  pose proof (dropWhile_head isspace t) as Hh.
  destruct (dropWhile isspace t) as [|c d] eqn:E; [discriminate|].
  apply negb_true_iff in H.
  assert (E' : dropWhile isspace (t ++ rest) = (c :: d) ++ rest).
  { rewrite <- (dropWhile_takeWhile isspace t) at 1. rewrite <- app_assoc, E.
    apply dropWhile_stops; [apply takeWhile_all|exact Hh]. }
  rewrite E'. cbn [app]. apply startswith_first. exact H.
Qed.

Lemma footer_head_off : all_tails off_label footer_head = true.
Proof. vm_compute. reflexivity. Qed.

Lemma footer_head_newline : exists r, footer_head = NL :: r.
Proof. eexists. reflexivity. Qed.

Lemma footer_head_ends_off : ends_off isspace footer_head.
Proof. apply ends_off_rev; [discriminate|vm_compute; reflexivity]. Qed.

Lemma footer_head_hit (w : str) : hitb footer_label (footer_head ++ w) = true.
Proof. apply hitb_app; [reflexivity|discriminate|vm_compute; reflexivity]. Qed.

Lemma footer_head_stripped_hit (w : str) :
  hitb footer_label (lstrip footer_head ++ w) = true.
Proof. apply hitb_app; [reflexivity|discriminate|vm_compute; reflexivity]. Qed.

(** A body as the stripping chain leaves it: stripped, without the label,
    without a footer block and without a disclaimer block. *)
Variable c1 : str.
Hypothesis c1_start : stops isspace c1.
Hypothesis c1_end : stops isspace (rev c1).
Hypothesis c1_plain : contains source_label c1 = false.
Hypothesis c1_footer : free footer_label c1.
Hypothesis c1_disclaimer : free disclaimer_label c1.

Lemma body_suffix_ends_off (u v : str) : c1 = u ++ v -> v <> [] -> ends_off isspace v.
Proof.
  intros E Hne. apply (ends_off_suffix u); [|exact Hne]. rewrite <- E.
  apply ends_off_rev; [|exact c1_end]. rewrite E. destruct u, v; try discriminate.
  contradiction.
Qed.

(** From no position of the body, or of the footer head behind it, is the
    label next after white space. *)
Lemma label_not_ahead (u t rest : str) :
  c1 ++ footer_head = u ++ t -> t <> [] ->
  startswith source_label (lstrip (t ++ rest)) = false.
Proof.
  intros E Hne. apply app_eq_app in E as [l [[E1 E2]|[E1 E2]]].
  - destruct l as [|x l].
    + subst t. apply off_label_spec.
      apply (@all_tails_spec off_label footer_head footer_head_off [] footer_head eq_refl).
      discriminate.
    + assert (Hl : ends_off isspace (x :: l))
        by (apply (body_suffix_ends_off u); [exact E1|discriminate]).
      subst t. rewrite <- app_assoc. unfold lstrip. rewrite (ends_off_drop _ Hl).
      destruct footer_head_newline as [r ->]. cbn [app].
      destruct (startswith source_label _) eqn:S; [|reflexivity].
      apply startswith_straddle in S as [S|S]; [|discriminate S].
      destruct (lstrip_suffix (x :: l)) as [u' Hu']. unfold lstrip in Hu'.
      rewrite Hu', app_assoc in E1. rewrite E1 in c1_plain.
      apply contains_starts in c1_plain. congruence.
  - apply off_label_spec.
    apply (@all_tails_spec off_label footer_head footer_head_off l t E2 Hne).
Qed.

(** No match of [r] starts in [L], whatever follows. *)
Definition unmatched (r : regex) (L : str) : Prop :=
  forall u x v, L = u ++ x :: v ->
    forall rest adv p, match_at multiline_flags r adv p (x :: v ++ rest) = None.

Lemma preamble_unmatched (r : regex) (a L : str) :
  (forall adv p s m, match_at multiline_flags r adv p s = Some m ->
                     startswith source_label (lstrip s) = true) ->
  c1 ++ footer_head = a ++ L ->
  unmatched r L.
Proof.
  intros Hr E u x v -> rest adv p.
  destruct (match_at multiline_flags r adv p (x :: v ++ rest)) eqn:M; [|reflexivity].
  apply Hr in M. rewrite app_assoc in E.
  pose proof (label_not_ahead _ rest E ltac:(discriminate)) as N.
  cbn [app] in N. congruence.
Qed.

(** A preamble pattern leaves such a stretch alone, and so does the
    stripping behind it, but for the white space in front. *)
Lemma preamble_pass (r : regex) (L w : str) :
  unmatched r L -> ends_off isspace L ->
  exists w', strip (sub multiline_flags r [] None (L ++ w)) = lstrip L ++ w'.
Proof.
  intros Hu (t & c & -> & Hc). unfold sub.
  rewrite sub_go_skip by (intros u x v E adv p; apply (Hu u x v E)).
  match goal with |- context [sub_go ?a ?b ?c ?d ?e ?f ?g ?h] =>
    set (Y := sub_go a b c d e f g h) end.
  exists (rstrip Y). unfold strip, lstrip. rewrite <- !app_assoc. cbn [app].
  rewrite !dropWhile_keep by exact Hc.
  rewrite rstrip_app_keep by exact Hc. rewrite <- app_assoc. reflexivity.
Qed.

(** The footer pattern cuts the second run's text where the body ends. *)
Lemma cut_second_run (w : str) :
  cut_at footer_label (lstrip (c1 ++ footer_head) ++ w) = c1.
Proof.
  assert (Ec : c1 = [] \/ c1 <> []) by (destruct c1; [left; reflexivity|right; discriminate]).
  destruct Ec as [Ec|Ec].
  - rewrite Ec. cbn [app]. apply cut_hit. apply footer_head_stripped_hit.
  - rewrite lstrip_id by (apply stops_app; [exact Ec|exact c1_start]).
    rewrite <- app_assoc.
    apply cut_app; [|apply footer_head_hit].
    intros u v E Hv.
    destruct (hitb footer_label (v ++ footer_head ++ w)) eqn:Hh; [|reflexivity].
    assert (Hw : exists r', footer_head ++ w = NL :: r'
                            /\ startswith footer_label (skip_nl (NL :: r')) = false).
    { eexists. split; [reflexivity|]. vm_compute. reflexivity. }
    destruct Hw as (r' & Hw1 & Hw2). rewrite Hw1 in Hh.
    apply hitb_straddle in Hh; [|reflexivity| |exact Hw2].
    + rewrite (c1_footer u v E) in Hh. discriminate.
    + apply (ends_off_weaken (p := isspace)).
      * intros c0 Hc0. unfold is_ in Hc0. apply eqc_true in Hc0. subst c0. reflexivity.
      * apply (body_suffix_ends_off u); [exact E|exact Hv].
Qed.

(** Run on such a body followed by a footer, the stripping chain gives
    the body back. *)
Lemma content_cleaned_second_run (w : str) :
  content_cleaned (c1 ++ footer_head ++ w) = c1.
Proof.
  unfold content_cleaned. cbv zeta. rewrite app_assoc.
  destruct (@preamble_pass re_preamble_annotated (c1 ++ footer_head) w) as [w1 ->].
  { apply (@preamble_unmatched _ []); [apply preamble_annotated_sound|reflexivity]. }
  { apply ends_off_app, footer_head_ends_off. }
  destruct (@preamble_pass re_preamble_plain (lstrip (c1 ++ footer_head)) w1) as [w2 ->].
  { destruct (lstrip_suffix (c1 ++ footer_head)) as [a Ha].
    apply (@preamble_unmatched _ a); [apply preamble_plain_sound|exact Ha]. }
  { apply ends_off_dropWhile, ends_off_app, footer_head_ends_off. }
  rewrite (@lstrip_id (lstrip (c1 ++ footer_head)) (lstrip_stops _)).
  remember re_bullet_block as r4 eqn:E4. remember re_disclaimer as r5 eqn:E5.
  rewrite sub_footer_block, cut_second_run. subst r4 r5.
  rewrite (@strip_id c1 c1_start c1_end).
  rewrite sub_bullet_block_none by exact c1_plain.
  rewrite (@strip_id c1 c1_start c1_end).
  rewrite sub_disclaimer, (@cut_free_id disclaimer_label c1 c1_disclaimer).
  apply (@strip_id c1 c1_start c1_end).
Qed.

End SecondRun.

(** What the stripping chain returns is stripped and holds neither a
    footer block nor a disclaimer block. *)
Lemma content_cleaned_stripped (content : str) :
  stops isspace (content_cleaned content)
  /\ stops isspace (rev (content_cleaned content)).
Proof. unfold content_cleaned. cbv zeta. apply strip_stops. Qed.

Lemma content_cleaned_free (content : str) :
  free footer_label (content_cleaned content)
  /\ free disclaimer_label (content_cleaned content).
Proof.
  unfold content_cleaned. cbv zeta.
  set (s2 := strip (sub multiline_flags re_preamble_plain [] None _)).
  remember re_bullet_block as r4 eqn:R4. remember re_disclaimer as r5 eqn:R5.
  rewrite sub_footer_block. subst r4 r5.
  set (s3 := strip (cut_at footer_label s2)).
  assert (F3 : free footer_label s3).
  { apply free_strip; [reflexivity|discriminate|].
    apply cut_free; [reflexivity|discriminate]. }
  destruct (sub_bullet_block_prefix s3) as [w4 E4].
  set (s4 := strip (sub dotall_flags re_bullet_block [] None s3)).
  assert (F4 : free footer_label s4).
  { apply free_strip; [reflexivity|discriminate|].
    apply free_prefix with (w := w4); [reflexivity|discriminate|].
    rewrite <- E4. exact F3. }
  rewrite sub_disclaimer. destruct (cut_prefix disclaimer_label s4) as [w5 E5]. split.
  - apply free_strip; [reflexivity|discriminate|].
    apply free_prefix with (w := w5); [reflexivity|discriminate|].
    rewrite <- E5. exact F4.
  - apply free_strip; [reflexivity|discriminate|].
    apply cut_free; [reflexivity|discriminate].
Qed.

(** [format_blog] run on its own output returns it, when the body it kept
    does not hold the label. *)
Lemma format_blog_rerun (content : str) (video_info : dict) :
  contains source_label (content_cleaned content) = false ->
  content_cleaned (format_blog content video_info) = content_cleaned content.
Proof.
  intros H. unfold format_blog. rewrite footer_split.
  destruct (content_cleaned_stripped content) as [S1 S2].
  destruct (content_cleaned_free content) as [F1 F2].
  apply content_cleaned_second_run; assumption.
Qed.

End BlogRerun.

(** * The claims *)

Section Claims.

Import Xiaohongshu.

(** ** C3 *)

(** C3 (the short-form flow lets the exception out): when the completion
    service raises, the long-form flow returns [None], but the short-form
    flow, which has no [try], ends with the same exception instead of a
    degraded result. *)
Theorem C3_short_form_raise_escapes
        (exn svc : Type) (generate_completion : request -> M exn svc (option str))
        (content : str) (video_info : dict) (max_tokens : Z)
        (s s1 : svc) (e : exn) :
  (forall q, generate_completion q s = (Raises e, s1)) ->
  Blog.generate generate_completion content video_info max_tokens s = (Returns None, s1)
  /\ generate generate_completion content max_tokens s = (Raises e, s1).
Proof.
  intros H. split.
  - unfold Blog.generate, try_except, bind. rewrite H. reflexivity.
  - unfold generate, _generate_titles, bind. rewrite H. reflexivity.
Qed.

(** A service that raises on every request. *)
Definition raising_service : request -> M str unit (option str) :=
  fun _ s => (Raises (txt "timeout"), s).

Lemma C3_short_form_raise_escapes_witness :
  (forall q, raising_service q tt = (Raises (txt "timeout"), tt))
  /\ Blog.generate raising_service (txt "Body.") [] 4000%Z tt = (Returns None, tt)
  /\ generate raising_service (txt "Body.") 2000%Z tt = (Raises (txt "timeout"), tt).
Proof.
  split; [reflexivity|].
  apply (@C3_short_form_raise_escapes str unit raising_service (txt "Body.") []
                                     4000%Z tt tt (txt "timeout")).
  reflexivity.
Defined.

(** ** C4 *)

(** C4: once the headline phase has returned, the headline list the flow
    goes on with is never empty; when extraction gave no candidate it is
    exactly the one placeholder headline, and the body request is built
    from the first headline of that list. *)
Theorem C4_headlines_never_empty
        (exn svc : Type) (generate_completion : request -> M exn svc (option str))
        (content : str) (max_tokens : Z) (s s1 : svc) (ts : list str) :
  _generate_titles generate_completion content s = (Returns ts, s1) ->
  with_placeholder ts <> []
  /\ (ts = [] -> with_placeholder ts = [placeholder_title]
                 /\ primary ts = placeholder_title)
  /\ (ts <> [] -> with_placeholder ts = ts)
  /\ generate generate_completion content max_tokens s =
     match generate_completion (content_request content (primary ts) max_tokens) s1 with
     | (Returns (Some (c :: x)), s2) =>
         (Returns (c :: x, with_placeholder ts, _extract_tags (c :: x)), s2)
     | (Returns _, s2) => (Returns (content, with_placeholder ts, []), s2)
     | (Raises e, s2) => (Raises e, s2)
     end.
Proof.
  intros H. split; [apply with_placeholder_not_nil|]. split; [|split].
  - intros ->. split; reflexivity.
  - destruct ts; [congruence|reflexivity].
  - apply generate_after_titles. exact H.
Qed.

(** A service that never has text to give. *)
Definition silent_service : request -> M str unit (option str) :=
  fun _ s => (Returns None, s).

Lemma C4_headlines_never_empty_witness :
  with_placeholder [] <> []
  /\ generate silent_service (txt "Body.") 2000%Z tt
     = (Returns (txt "Body.", [placeholder_title], []), tt).
Proof.
  destruct (@C4_headlines_never_empty str unit silent_service (txt "Body.") 2000%Z
                                      tt tt [] eq_refl) as (H1 & _ & _ & H4).
  split; [exact H1|]. rewrite H4. reflexivity.
Defined.

(** ** C5 *)

(** C5 (an exception of the body phase escapes): once the headline phase
    has returned, a body phase that comes back with [None] or an empty
    string makes the flow return the input content as it was, the headline
    list collected so far and no tags; but when the completion service
    raises on the body request, the flow, which has no [try] around the
    call, ends with that exception and returns nothing. *)
Theorem C5_body_failure_outcomes
        (exn svc : Type) (generate_completion : request -> M exn svc (option str))
        (content : str) (max_tokens : Z) (s s1 : svc) (ts : list str) :
  _generate_titles generate_completion content s = (Returns ts, s1) ->
  (forall (r : option str) (s2 : svc),
      generate_completion (content_request content (primary ts) max_tokens) s1
      = (Returns r, s2) ->
      truthy r = false ->
      generate generate_completion content max_tokens s
      = (Returns (content, with_placeholder ts, []), s2))
  /\ (forall (e : exn) (s2 : svc),
         generate_completion (content_request content (primary ts) max_tokens) s1
         = (Raises e, s2) ->
         generate generate_completion content max_tokens s = (Raises e, s2)).
Proof.
  intros H1. split.
  - intros r s2 H2 H3. erewrite generate_after_titles; [|exact H1]. rewrite H2.
    destruct r as [[|c x]|]; [reflexivity|discriminate|reflexivity].
  - intros e s2 H2. erewrite generate_after_titles; [|exact H1]. rewrite H2.
    reflexivity.
Qed.

(** A service that has no headlines to give and times out on the next
    request; its state says whether the first request was made. *)
Definition failing_service : request -> M str bool (option str) :=
  fun _ called =>
    if called then (Raises (txt "timeout"), true) else (Returns None, true).

Lemma C5_body_failure_outcomes_witness :
  _generate_titles failing_service (txt "Body.") false = (Returns [], true)
  /\ generate failing_service (txt "Body.") 2000%Z false
     = (Raises (txt "timeout"), true).
Proof.
  assert (H : _generate_titles failing_service (txt "Body.") false = (Returns [], true))
    by reflexivity.
  split; [exact H|].
  exact (proj2 (@C5_body_failure_outcomes str bool failing_service (txt "Body.")
                                          2000%Z false true [] H)
               (txt "timeout") true eq_refl).
Defined.

(** ** C6 *)

(** A title section whose only line has three characters. *)
Definition short_section : str :=
  txt "一. 标题" ++ [NL] ++ txt "abc" ++ [NL] ++ txt "二. 正文".

(** C6, counterexample: the section-scoped mode of [_parse_result] accepts
    a line of 3 characters. *)
Lemma C6_section_mode_accepts_short_line :
  _parse_result short_section = ([txt "abc"], [])
  /\ length (txt "abc") = 3.
Proof. split; vm_compute; reflexivity. Qed.

(** C6 (amended): in [_generate_titles] a line is kept, after its leading
    markers are stripped, if and only if its length lies in [6, 49]; so
    lengths 4 and 5 are rejected, 20 is accepted, 50 and more are rejected.
    The headlines returned are the first five of the lines kept. *)
Theorem C6_generate_titles_length_filter :
  (forall lines, title_loop lines = filter accepted (map clean_line lines))
  /\ (forall line, accepted line = true <-> 6 <= length line <= 49)
  /\ (forall line, (length line = 4 \/ length line = 5 -> accepted line = false)
                   /\ (length line = 20 -> accepted line = true)
                   /\ (50 <= length line -> accepted line = false))
  /\ (forall (exn svc : Type) (generate_completion : request -> M exn svc (option str))
             (content : str) (s : svc),
         match generate_completion (title_request content) s with
         | (Returns (Some (c :: x)), s1) =>
             _generate_titles generate_completion content s =
             (Returns (firstn 5 (filter accepted
                                   (map clean_line (split_chr NL (c :: x))))), s1)
         | (Returns _, s1) =>
             _generate_titles generate_completion content s = (Returns [], s1)
         | (Raises e, s1) =>
             _generate_titles generate_completion content s = (Raises e, s1)
         end).
Proof.
  split; [exact title_loop_filter|]. split; [exact accepted_length|]. split.
  - intros line. repeat split; intros H.
    + destruct (accepted line) eqn:E; auto. apply accepted_length in E. lia.
    + apply accepted_length. lia.
    + destruct (accepted line) eqn:E; auto. apply accepted_length in E. lia.
  - intros exn svc gc content s. pose proof (generate_titles_cases gc content s) as H.
    destruct (gc (title_request content) s) as [[[[|c x]|]|e] s1]; auto.
    rewrite <- title_loop_filter. exact H.
Qed.

(** ** C8 *)

(** C8: the tags extracted from a text are exactly the maximal runs of
    non-space, non-[#] characters that follow a [#], in the order of the
    text, with repetitions kept and no change of case; a text without such
    a run gives the empty list. *)
Theorem C8_extract_tags_runs :
  (forall text, _extract_tags text = tag_runs text)
  /\ _extract_tags (txt "a #topic b #Topic #topic, #other")
     = [txt "topic"; txt "Topic"; txt "topic,"; txt "other"]
  /\ _extract_tags (txt "#topic #topic #other") = [txt "topic"; txt "topic"; txt "other"]
  /\ _extract_tags (txt "no tag here: # ## #") = [].
Proof.
  split; [exact extract_tags_runs|].
  repeat split; vm_compute; reflexivity.
Qed.

(** ** C9 *)

(** C9: the user prompt of the headline phase embeds the first 500
    characters of the content and nothing else of it; the user prompt of
    the body phase embeds the whole content and the headline given, and the
    flow gives it the first headline of phase 1. *)
Theorem C9_prompts_embed_content :
  (exists head tail, forall content,
      _build_title_user_prompt content = head ++ firstn 500 content ++ tail)
  /\ (forall c1 c2, firstn 500 c1 = firstn 500 c2 ->
                    _build_title_user_prompt c1 = _build_title_user_prompt c2)
  /\ (forall content,
         length (_build_title_user_prompt content)
         <= length (_build_title_user_prompt []) + 500)
  /\ (exists head mid tail, forall content title,
         _build_content_user_prompt content title
         = head ++ title ++ mid ++ content ++ tail)
  /\ (forall (exn svc : Type) (generate_completion : request -> M exn svc (option str))
             (content : str) (max_tokens : Z) (s : svc),
         generate generate_completion content max_tokens s =
         match generate_completion
                 (Request _build_title_system_prompt
                          (_build_title_user_prompt content) (8 # 10)%Q 500%Z) s with
         | (Raises e, s1) => (Raises e, s1)
         | (Returns r, s1) =>
             let ts := match r with
                       | Some (c :: x) => firstn 5 (title_loop (split_chr NL (c :: x)))
                       | _ => []
                       end in
             match generate_completion
                     (Request _build_content_system_prompt
                              (_build_content_user_prompt content (primary ts))
                              (7 # 10)%Q max_tokens) s1 with
             | (Returns (Some (c :: x)), s2) =>
                 (Returns (c :: x, with_placeholder ts, _extract_tags (c :: x)), s2)
             | (Returns _, s2) => (Returns (content, with_placeholder ts, []), s2)
             | (Raises e, s2) => (Raises e, s2)
             end
         end).
Proof.
  split; [|split; [|split; [|split]]].
  - eexists; eexists; intros content. unfold _build_title_user_prompt. reflexivity.
  - intros c1 c2 H. unfold _build_title_user_prompt. rewrite H. reflexivity.
  - intros content. unfold _build_title_user_prompt.
    rewrite !length_app, length_firstn. simpl firstn. simpl (length []). lia.
  - eexists; eexists; eexists; intros content title.
    unfold _build_content_user_prompt. reflexivity.
  - intros exn svc gc content max_tokens s.
    pose proof (generate_titles_cases gc content s) as H.
    unfold title_request in H.
    destruct (gc _ s) as [[r|e] s1] eqn:E.
    + assert (Ht : _generate_titles gc content s
                   = (Returns match r with
                              | Some (c :: x) => firstn 5 (title_loop (split_chr NL (c :: x)))
                              | _ => []
                              end, s1))
        by (destruct r as [[|c x]|]; exact H).
      cbv zeta. erewrite generate_after_titles; [|exact Ht].
      reflexivity.
    + unfold generate, bind at 1. rewrite H. reflexivity.
Qed.

(** ** C10 *)

(** The text of an assembled note before, between and after the two
    halves of the body. *)
Definition note_prefix (title : str) (images : list str)
           (all_titles : option (list str)) : str :=
  join [NL] (note_head title images all_titles) ++ [NL].

Definition note_between (images : list str) : str :=
  [NL] ++ join [NL] (note_mid images) ++ [NL].

Definition note_suffix (tags images : list str) : str :=
  match note_tail tags images with
  | [] => []
  | l => [NL] ++ join [NL] l
  end.

(** C10: one run of [format_note] puts the blocks of the cleaned body,
    split at blank lines, into the document once each and in their order:
    the first half, the text between, the second half; the two halves
    together are all the blocks, and the blocks joined by blank lines are
    the cleaned body. *)
Theorem C10_format_note_keeps_blocks
        (content title : str) (tags images : list str)
        (all_titles : option (list str)) :
  let parts := split_go [NL; NL] 0 (content_cleaned content) in
  let mid_point := length parts / 2 in
  format_note content title tags images all_titles
  = note_prefix title images all_titles
      ++ join [NL; NL] (firstn mid_point parts)
      ++ note_between images
      ++ join [NL; NL] (skipn mid_point parts)
      ++ note_suffix tags images
  /\ firstn mid_point parts ++ skipn mid_point parts = parts
  /\ join [NL; NL] parts = content_cleaned content.
Proof.
  cbv zeta. split; [|split; [apply firstn_skipn | apply join_split_blank]].
  rewrite format_note_pieces. unfold body_parts, note_prefix, note_between, note_suffix.
  set (a := join [NL; NL] (firstn _ _)). set (b := join [NL; NL] (skipn _ _)).
  assert (Hh : note_head title images all_titles <> []).
  { unfold note_head. destruct all_titles as [l|]; [destruct (1 <? length l)|];
      destruct images; simpl; try discriminate.
    all: destruct (numbered 1 l); discriminate. }
  assert (Hm : note_mid images <> []) by (unfold note_mid; simpl; discriminate).
  rewrite join_app by (auto; discriminate).
  change ([a] ++ note_mid images ++ [b] ++ note_tail tags images)
    with (a :: (note_mid images ++ b :: note_tail tags images)).
  rewrite join_cons.
  destruct (note_mid images ++ b :: note_tail tags images) eqn:E;
    [destruct (note_mid images); discriminate|]. rewrite <- E.
  rewrite join_app by (auto; discriminate). rewrite join_cons.
  rewrite <- !app_assoc. destruct (note_tail tags images); reflexivity.
Qed.

(** ** C1 *)

(** A body that is just the two metadata lines, without a final newline. *)
Definition bare_preamble : str :=
  txt "思想来源:x" ++ [NL] ++ txt "原始视频:y".

(** An article that ends with the two lines in the annotated form, again
    without a final newline. *)
Definition annotated_tail : str :=
  txt "Text" ++ [NL] ++ txt "思想来源 (Source of Inspiration): X" ++ [NL]
  ++ txt "原始视频 (Original Video): Y".

(** C1 (metadata lines without a final newline are kept): both preamble
    patterns end in a newline, so the first run of [format_blog] keeps two
    metadata lines that end the content and appends the footer behind
    them; the second run finds them followed by the footer's newline,
    strips them, and returns another document.  With the final newline the
    first run strips the lines. *)
Theorem C1_unterminated_metadata_kept :
  Blog.format_blog bare_preamble [] = bare_preamble ++ Blog.footer []
  /\ Blog.format_blog (Blog.format_blog bare_preamble []) [] = Blog.footer []
  /\ str_eqb (Blog.format_blog (Blog.format_blog bare_preamble []) [])
             (Blog.format_blog bare_preamble []) = false
  /\ Blog.format_blog (bare_preamble ++ [NL; NL] ++ txt "Text") []
     = txt "Text" ++ Blog.footer []
  /\ Blog.format_blog annotated_tail [] = annotated_tail ++ Blog.footer []
  /\ Blog.format_blog (Blog.format_blog annotated_tail []) []
     = txt "Text" ++ Blog.footer []
  /\ str_eqb (Blog.format_blog (Blog.format_blog annotated_tail []) [])
             (Blog.format_blog annotated_tail []) = false.
Proof. repeat split; vm_compute; reflexivity. Qed.

(** ** C7 *)

(** A title section of six lines. *)
Definition six_line_section : str :=
  txt "一. 标题" ++ [NL]
  ++ join [NL] (map (fun c => repeat c 8) (txt "abcdef")) ++ [NL]
  ++ txt "二. 正文".

(** C7, counterexample: the section-scoped mode of [_parse_result] returns
    six headlines. *)
Lemma C7_section_mode_returns_six :
  length (fst (_parse_result six_line_section)) = 6.
Proof. vm_compute; reflexivity. Qed.

(** C7 (amended): [_generate_titles] returns at most five headlines, in
    the order of the lines, each with its leading markers stripped in the
    order ordinal, title tag, bullet; on a response of five marked lines
    whose texts have 10 to 40 characters it returns exactly the five texts.
    The first-ten-lines fallback of [_parse_result] also stops at five; its
    section-scoped mode has no such cap. *)
Theorem C7_headline_extraction :
  (forall (exn svc : Type) (generate_completion : request -> M exn svc (option str))
          (content : str) (s : svc),
      match _generate_titles generate_completion content s with
      | (Returns ts, _) => length ts <= 5
      | (Raises _, _) => True
      end)
  /\ (forall lines, title_loop lines = filter accepted (map clean_line lines))
  /\ (forall line,
         clean_line line
         = sub no_flags re_bullet [] None
             (sub no_flags re_title_mark [] None
                (sub no_flags re_ordinal [] None (strip line))))
  /\ (forall l : list (marker * str),
         length l = 5 -> Forall headline_ok l ->
         forall (exn svc : Type) (generate_completion : request -> M exn svc (option str))
                (content : str) (s s1 : svc),
           generate_completion (title_request content) s
           = (Returns (Some (marked_lines l)), s1) ->
           _generate_titles generate_completion content s = (Returns (map snd l), s1))
  /\ (forall lines, length (fallback_loop lines []) <= 5).
Proof.
  split; [|split; [exact title_loop_filter|split; [reflexivity|split]]].
  - intros exn svc gc content s. pose proof (generate_titles_cases gc content s) as H.
    destruct (gc (title_request content) s) as [[[[|c x]|]|e] s1]; rewrite H;
      [simpl; lia|apply firstn_le_length|simpl; lia|exact I].
  - intros l Hl Hok exn svc gc content s s1 Hr.
    pose proof (generate_titles_cases gc content s) as H. rewrite Hr in H.
    assert (Hne : l <> []) by (destruct l; [discriminate|discriminate]).
    pose proof (title_loop_marked Hne Hok) as Ht.
    destruct (marked_lines l) as [|c x] eqn:E.
    + exfalso. destruct l as [|[m b] l]; [congruence|].
      inversion Hok as [|? ? [_ [Hb _]] _]; subst. cbn [snd] in Hb.
      apply plain_facts in Hb as (_ & (c & b' & -> & _) & _).
      unfold marked_lines in E. cbn [map fst snd] in E. rewrite join_cons in E.
      apply (f_equal (@length char)) in E. revert E. len_solve.
    + rewrite H, Ht. f_equal. f_equal. apply firstn_all2. rewrite length_map. lia.
  - intros lines. apply fallback_loop_cap. simpl. lia.
Qed.

(** Five marked headlines, the texts of the example in the prompt. *)
Definition five_marked : list (marker * str) :=
  [(Ordinal (txt "1") DOT [SP], txt "数字迷雾大揭秘✨3个方法让你秒懂数字陷阱！");
   (Ordinal (txt "2") RPAR [SP], txt "谁懂啊🤔这些数字问题把我绕晕了！");
   (Ordinal (txt "3") 12289%N [], txt "从被骗到透视💡7天学会识破数字套路");
   (TitleTag (txt "4") [SP], txt "你真的懂数字吗❗️90%人都答错的题！");
   (Bullet DASH [SP], txt "2025必学技能🔥数字思维让你更聪明")].

Lemma five_marked_ok : Forall headline_ok five_marked.
Proof.
  unfold five_marked.
  repeat (apply Forall_cons;
          [split; [vm_compute; reflexivity
                  |split; [vm_compute; reflexivity|vm_compute; lia]]|]).
  apply Forall_nil.
Qed.

Lemma C7_headline_extraction_witness :
  _generate_titles
    (fun (_ : request) (s : unit) => (@Returns str _ (Some (marked_lines five_marked)), s))
    (txt "Body.") tt
  = (Returns (map snd five_marked), tt).
Proof.
  exact (proj1 (proj2 (proj2 (proj2 C7_headline_extraction))) five_marked
               eq_refl five_marked_ok str unit
               (fun (_ : request) (s : unit) =>
                  (@Returns str _ (Some (marked_lines five_marked)), s))
               (txt "Body.") tt tt eq_refl).
Defined.

(** ** C2 *)

(** A note of one paragraph, assembled with two candidate titles. *)
Definition two_titles : option (list str) := Some [txt "A"; txt "B"].

Definition note_once : str :=
  format_note (txt "body") (txt "T") [txt "x"] [] two_titles.

(** C2 (the body is lost on the second run): with more than one candidate
    title, each of one line, the cleaning steps of [format_note], run on an
    output of [format_note], take the line [# 备选标题] for the heading to
    strip and the rule of the preamble, behind which the title heading
    begins with [#], for the rule of a tag block: what they leave is the
    numbered candidates.  So the second output is that of one run on the
    candidates, whatever the content was: the candidates are in it twice,
    as the preamble and as the body, and the body of the first run is not
    in it. *)
Theorem C2_rerun_loses_body
        (content title : str) (tags images : list str) (ts : list str) :
  1 < length ts ->
  Forall (fun t => existsb (eqc NL) t = false) ts ->
  let once := format_note content title tags images (Some ts) in
  content_cleaned once = strip (candidates ts)
  /\ format_note once title tags images (Some ts)
     = format_note (candidates ts) title tags images (Some ts)
  /\ forall content' : str,
       format_note (format_note content' title tags images (Some ts))
                   title tags images (Some ts)
       = format_note once title tags images (Some ts).
Proof.
  intros Hts Hnl. cbv zeta. split; [|split].
  - apply content_cleaned_rerun; assumption.
  - apply format_note_rerun; assumption.
  - intros content'. rewrite !format_note_rerun by assumption. reflexivity.
Qed.

Lemma C2_rerun_loses_body_witness :
  content_cleaned note_once = txt "1. A" ++ [NL] ++ txt "2. B"
  /\ format_note note_once (txt "T") [txt "x"] [] two_titles
     = format_note (candidates [txt "A"; txt "B"]) (txt "T") [txt "x"] [] two_titles
  /\ count_line (txt "body") note_once = 1
  /\ count_line (txt "body") (format_note note_once (txt "T") [txt "x"] [] two_titles) = 0
  /\ count_line (txt "1. A") note_once = 1
  /\ count_line (txt "1. A") (format_note note_once (txt "T") [txt "x"] [] two_titles) = 2.
Proof.
  destruct (@C2_rerun_loses_body (txt "body") (txt "T") [txt "x"] [] [txt "A"; txt "B"])
    as (H1 & H2 & _).
  - simpl. lia.
  - repeat constructor.
  - split; [unfold note_once, two_titles; rewrite H1; vm_compute; reflexivity|].
    split; [exact H2|]. repeat split; vm_compute; reflexivity.
Defined.

End Claims.
